(** * apollon/signal/correlogram.c: windowed Pearson correlation and the
      two correlogram builders

    The C file has three functions:
    - [corrcoef]: single-pass Pearson coefficient of two windows of one
      buffer, with the reserved result [-2] when the product of the two
      standard deviations is zero;
    - [correlogram_delay]: fills a row-major matrix for an explicit list of
      delays;
    - [correlogram]: the same for the delays [1 .. dims[0]-1].

    ** How the C is embedded

    - [size_t] is a [Z] in [[0, 2^64)]; every addition, subtraction and
      multiplication of the source is written with its wrap-around
      ([size_wrap]).
    - [double] is a type [D] with the operations the source uses
      ([DoubleOps]).  The three functions are written once, over any
      [DoubleOps].  [binary64] is the kernel's IEEE 754 binary64 arithmetic
      (round to nearest even, every operation rounded on its own): what a C
      [double] is, and the functions compute on it.  The kernel has one
      NaN: payloads and the sign of a NaN are not modelled.
    - [pow] is libm's, not this repository's.  [binary64_libm pow4] is
      binary64 with any function [pow4] in the place of [pow (r, 4)];
      [binary64] takes two rounded squarings, to evaluate the builders on
      concrete inputs.
    - a pointer argument is the list of the cells it points to; reading or
      writing past the end is undefined in C and is [None] here.  The four
      buffers ([sig], [delays], [dims], [cgram]) are taken to be disjoint.
    - [cgram] is threaded through the loops together with the list of the
      indices stored so far, so that "which cells were written" can be
      stated.
    - the line printed on [stderr] is not part of the state.

    ** What is proved where

    The statements about control flow, reads and stores are proved for
    every [DoubleOps], hence for [binary64].  The statements about the value
    of the coefficient and of the cells are proved for [binary64] itself,
    from the kernel's specification of its operations; inputs on which
    rounding breaks an identity of real numbers are evaluated in section
    [Binary64Claims]. *)

From Stdlib Require Import ZArith Lia.
From Stdlib Require Import Floats.PrimFloat.
From Stdlib Require Uint63 SpecFloat FloatOps FloatAxioms.
From stdpp Require Import base option list.

Set Default Proof Using "Type".
Local Open Scope Z_scope.

(** ** [size_t] *)

Definition SIZE_MAX : Z := 2 ^ 64 - 1.

(** Reduction of an unsigned result to 64 bits. *)
Definition size_wrap (z : Z) : Z := z mod 2 ^ 64.

(** [is_size z]: [z] is a value of type [size_t]. *)
Definition is_size (z : Z) : Prop := 0 <= z <= SIZE_MAX.

(** ** [double] *)

(** The operations of [double] and of [<math.h>] that correlogram.c uses. *)
Class DoubleOps (D : Type) : Type := {
  d_of_Z : Z -> D;          (* conversion of an integer value: [0.0], [-2], [(double) n] *)
  dadd : D -> D -> D;       (* [+] *)
  dsub : D -> D -> D;       (* [-] *)
  dmul : D -> D -> D;       (* [*] *)
  ddiv : D -> D -> D;       (* [/] *)
  dsqrt : D -> D;           (* [sqrt] *)
  dpow4 : D -> D;           (* [pow (r, 4)] *)
  deqb : D -> D -> bool;    (* [==] *)
  dltb : D -> D -> bool     (* [<] *)
}.

(** *** IEEE 754 binary64 *)

Module Binary64.

(** [(double) z] for [0 <= z < 2^64].  [of_uint63] rounds a 63-bit integer
    to nearest even; for the top half of the range the lowest bit is folded
    into the next one as a sticky bit, so that halving loses nothing the
    rounding looks at. *)
Definition of_size (z : Z) : float :=
  if z <? 2 ^ 63 then PrimFloat.of_uint63 (Uint63.of_Z z)
  else (PrimFloat.of_uint63 (Uint63.of_Z (Z.lor (Z.shiftr z 1) (Z.land z 1))) * 2)%float.

Definition of_Z (z : Z) : float :=
  if z <? 0 then PrimFloat.opp (of_size (- z)) else of_size z.

(** [pow (r, 4)] is libm's, not this repository's.  Two rounded squarings
    are one way to compute it; a libm may return a neighbouring double. *)
Definition pow4 (r : float) : float := ((r * r) * (r * r))%float.

End Binary64.

#[export] Instance binary64 : DoubleOps float := {|
  d_of_Z := Binary64.of_Z;
  dadd := PrimFloat.add;
  dsub := PrimFloat.sub;
  dmul := PrimFloat.mul;
  ddiv := PrimFloat.div;
  dsqrt := PrimFloat.sqrt;
  dpow4 := Binary64.pow4;
  deqb := PrimFloat.eqb;
  dltb := PrimFloat.ltb
|}.

(** binary64 with [pow4] in the place of libm's [pow (r, 4)]. *)
Definition binary64_libm (pow4 : float -> float) : DoubleOps float := {|
  d_of_Z := Binary64.of_Z;
  dadd := PrimFloat.add;
  dsub := PrimFloat.sub;
  dmul := PrimFloat.mul;
  ddiv := PrimFloat.div;
  dsqrt := PrimFloat.sqrt;
  dpow4 := pow4;
  deqb := PrimFloat.eqb;
  dltb := PrimFloat.ltb
|}.

(** ** Control flow of a loop body that may [return] *)

Inductive flow (S : Type) : Type :=
| Continue (s : S)               (* fell through to the next iteration *)
| Return (code : Z) (s : S).     (* executed [return code;] *)
Arguments Continue {S} s.
Arguments Return {S} code s.

(** [for (size_t i = lo; i < hi; i++) body] from state [s]: the guard holds
    exactly for the [hi - lo] values [lo, lo+1, ..., hi-1] (none when
    [hi <= lo]), so the loop is run that many times; [None] is undefined
    behaviour inside the body. *)
Fixpoint for_loop {S : Type} (body : Z -> S -> option (flow S))
    (count : nat) (i : Z) (s : S) : option (flow S) :=
  match count with
  | O => Some (Continue s)
  | Datatypes.S count' =>
      match body i s with
      | Some (Continue s') => for_loop body count' (size_wrap (i + 1)) s'
      | stop => stop
      end
  end.

Definition for_range {S : Type} (lo hi : Z) (body : Z -> S -> option (flow S))
    (s : S) : option (flow S) :=
  for_loop body (Z.to_nat (hi - lo)) lo s.

(** The state a loop was left in, however it was left. *)
Definition flow_state {S : Type} (f : flow S) : S :=
  match f with
  | Continue s => s
  | Return _ s => s
  end.

Section Correlogram.

Context {D : Type} {ops : DoubleOps D}.

(** *** corrcoef *)

(** The five running sums of [corrcoef]. *)
Record sums : Type := Sums {
  s_x : D;
  s_y : D;
  s_xy : D;
  s_sq_x : D;
  s_sq_y : D
}.

Definition sums_zero : sums :=
  Sums (d_of_Z 0) (d_of_Z 0) (d_of_Z 0) (d_of_Z 0) (d_of_Z 0).

(** [p[i]] for a pointer [p] to the cells [buf]. *)
Definition load {A : Type} (buf : list A) (i : Z) : option A :=
  if 0 <=? i then buf !! Z.to_nat i else None.

(** The body of the loop of [corrcoef] at [i], [j]. *)
Definition corrcoef_body (data : list D) (i j : Z) (s : sums) : option sums :=
  xi ← load data i;
  yi ← load data j;
  Some (Sums (dadd (s_x s) xi)
             (dadd (s_y s) yi)
             (dadd (s_xy s) (dmul xi yi))
             (dadd (s_sq_x s) (dmul xi xi))
             (dadd (s_sq_y s) (dmul yi yi))).

(** [for (size_t i = off_x, j = off_y; i < max_iter; i++, j++)], run for
    the [count = max_iter - off_x] values of [i] below [max_iter]. *)
Fixpoint corrcoef_loop (data : list D) (count : nat) (i j : Z) (s : sums)
    : option sums :=
  match count with
  | O => Some s
  | Datatypes.S count' =>
      s' ← corrcoef_body data i j s;
      corrcoef_loop data count' (size_wrap (i + 1)) (size_wrap (j + 1)) s'
  end.

(** What [corrcoef] computes from the five sums. *)
Definition corrcoef_finish (s : sums) (n : Z) : D :=
  let cov := dsub (s_xy s) (ddiv (dmul (s_x s) (s_y s)) (d_of_Z n)) in
  let ms_x := ddiv (dmul (s_x s) (s_x s)) (d_of_Z n) in
  let ms_y := ddiv (dmul (s_y s) (s_y s)) (d_of_Z n) in
  let p_std := dmul (dsqrt (dsub (s_sq_x s) ms_x)) (dsqrt (dsub (s_sq_y s) ms_y)) in
  if deqb p_std (d_of_Z 0) then d_of_Z (-2) else ddiv cov p_std.

Definition corrcoef (data : list D) (off_x off_y n : Z) : option D :=
  let max_iter := size_wrap (off_x + n) in
  s ← corrcoef_loop data (Z.to_nat (max_iter - off_x)) off_x off_y sums_zero;
  Some (corrcoef_finish s n).

(** *** The builders *)

(** [cgram] and the indices stored into it so far, oldest first. *)
Record matrix : Type := Matrix {
  cells : list D;
  stored : list Z
}.

(** [cgram[idx] = v;] *)
Definition store (idx : Z) (v : D) (m : matrix) : option matrix :=
  if decide (0 <= idx < Z.of_nat (length (cells m))) then
    Some (Matrix (<[Z.to_nat idx := v]> (cells m)) (stored m ++ [idx]))
  else None.

(** [r > 0.0F ? pow(r, 4) : 0.0F] *)
Definition rectify (r : D) : D :=
  if dltb (d_of_Z 0) r then dpow4 r else d_of_Z 0.

(** The body both builders run for one cell: [r] is computed from the
    windows at [t] and [off_y]; on [-2] the builder returns [0], otherwise
    the rectified fourth power is stored at [idx]. *)
Definition fill_cell (sig : list D) (wlen t off_y idx : Z) (m : matrix)
    : option (flow matrix) :=
  r ← corrcoef sig t off_y wlen;
  if deqb r (d_of_Z (-2)) then Some (Return 0 m)
  else m' ← store idx (rectify r) m; Some (Continue m').

(** What the function returns after its loops: the code of the [return]
    that was executed, or [1] from the final [return 1;]. *)
Definition finish (r : option (flow matrix)) : option (Z * matrix) :=
  f ← r;
  match f with
  | Continue m => Some (1, m)
  | Return code m => Some (code, m)
  end.

Definition correlogram_delay (sig : list D) (delays : list Z) (wlen : Z)
    (dims : list Z) (cgram : list D) : option (Z * matrix) :=
  finish (
    dims0 ← load dims 0;
    for_range 0 dims0 (fun i m =>
      dims1 ← load dims 1;
      for_range 0 dims1 (fun t m =>
        delay ← load delays i;
        fill_cell sig wlen t (size_wrap (t + delay))
          (size_wrap (size_wrap (i * dims1) + t)) m) m)
    (Matrix cgram [])).

Definition correlogram (sig : list D) (wlen : Z) (dims : list Z)
    (cgram : list D) : option (Z * matrix) :=
  finish (
    dims0 ← load dims 0;
    for_range 1 dims0 (fun delay m =>
      dims1 ← load dims 1;
      for_range 0 dims1 (fun off m =>
        fill_cell sig wlen off (size_wrap (off + delay))
          (size_wrap (size_wrap (size_wrap (delay - 1) * dims1) + off)) m) m)
    (Matrix cgram [])).

End Correlogram.

Arguments sums D : clear implicits.
Arguments matrix D : clear implicits.

(** ** Vocabulary of the statements *)

(** [in_bounds buf off n]: the [n] cells from [off] on lie inside [buf]. *)
Definition in_bounds {A : Type} (buf : list A) (off n : Z) : Prop :=
  0 <= off /\ 0 <= n /\ off + n <= Z.of_nat (length buf).

(** The window of length [n] that starts at [off]. *)
Definition window {A : Type} (buf : list A) (off n : Z) : list A :=
  take (Z.to_nat n) (drop (Z.to_nat off) buf).

Section Pearson.

Context {D : Type} {ops : DoubleOps D}.

(** Sum of a list, accumulated from [0.0] left to right. *)
Definition dsum (l : list D) : D := foldl dadd (d_of_Z 0) l.

(** Sum of the products of paired samples. *)
Definition dot (xs ys : list D) : D := dsum (zip_with dmul xs ys).

(** [cov = Σxy - (Σx·Σy)/n] *)
Definition pearson_cov (xs ys : list D) (n : Z) : D :=
  dsub (dot xs ys) (ddiv (dmul (dsum xs) (dsum ys)) (d_of_Z n)).

(** [Σx² - ms_x] with [ms_x = (Σx)²/n]: [n] times the variance of [xs]. *)
Definition pearson_var (xs : list D) (n : Z) : D :=
  dsub (dot xs xs) (ddiv (dmul (dsum xs) (dsum xs)) (d_of_Z n)).

(** [p_std = sqrt(Σx² - ms_x) · sqrt(Σy² - ms_y)] *)
Definition pearson_p_std (xs ys : list D) (n : Z) : D :=
  dmul (dsqrt (pearson_var xs n)) (dsqrt (pearson_var ys n)).

(** [cov / p_std] *)
Definition pearson (xs ys : list D) (n : Z) : D :=
  ddiv (pearson_cov xs ys n) (pearson_p_std xs ys n).

(** The sums [s], continued over the paired samples of [xs] and [ys]. *)
Definition accumulate (s : sums D) (xs ys : list D) : sums D :=
  Sums (foldl dadd (s_x s) xs)
       (foldl dadd (s_y s) ys)
       (foldl dadd (s_xy s) (zip_with dmul xs ys))
       (foldl dadd (s_sq_x s) (zip_with dmul xs xs))
       (foldl dadd (s_sq_y s) (zip_with dmul ys ys)).

(** [r == -2], the test both builders apply to the coefficient. *)
Definition is_sentinel (r : D) : bool := deqb r (d_of_Z (-2)).

(** The coefficient [correlogram_delay] computes for row [i] and
    position [t]. *)
Definition coef_delay (sig : list D) (delays : list Z) (wlen i t : Z) : option D :=
  delay ← load delays i;
  corrcoef sig t (size_wrap (t + delay)) wlen.

(** The coefficient [correlogram] computes for [delay] and position [off]. *)
Definition coef_range (sig : list D) (wlen delay off : Z) : option D :=
  corrcoef sig off (size_wrap (off + delay)) wlen.

End Pearson.

(** [(i, t)] comes before [(i0, t0)] in the order of the two nested loops. *)
Definition before (i t i0 t0 : Z) : Prop := i < i0 \/ (i = i0 /\ t < t0).

Section Outcomes.

Context {D : Type} {ops : DoubleOps D}.

(** The coefficient of a cell was computed (no read out of bounds) and is
    not the sentinel. *)
Definition proper (r : option D) : Prop :=
  exists v, r = Some v /\ is_sentinel v = false.

(** The coefficient of a cell was computed and is the sentinel. *)
Definition degenerate (r : option D) : Prop :=
  exists v, r = Some v /\ is_sentinel v = true.

(** [partial_fill coef place lo T i0 t0 cgram m']: [m'] is [cgram] after
    exactly the cells before [(i0, t0)] were stored, rows starting at [lo]:
    the stores recorded are the places of those cells, each holds its
    rectified coefficient, and every place not stored to is as in [cgram]. *)
Definition partial_fill (coef : Z -> Z -> option D) (place : Z -> Z -> Z)
    (lo T i0 t0 : Z) (cgram : list D) (m' : matrix D) : Prop :=
  length (cells m') = length cgram /\
  (forall k, k ∈ stored m' <->
     exists i t, lo <= i /\ 0 <= t < T /\ before i t i0 t0 /\ k = place i t) /\
  (forall i t r, lo <= i -> 0 <= t < T -> before i t i0 t0 ->
     coef i t = Some r -> load (cells m') (place i t) = Some (rectify r)) /\
  (forall k, k ∉ stored m' -> load (cells m') k = load cgram k).

End Outcomes.

(** *** The nested loops as one pass over a list of cells *)

(** The pairs the two nested loops visit, in their order: rows [lo .. hi-1],
    positions [0 .. T-1] within each. *)
Definition grid (lo hi T : Z) : list (Z * Z) :=
  i ← seqZ lo (hi - lo); (fun t => (i, t)) <$> seqZ 0 T.

(** A loop over an explicit list of cells, with the same early exit as
    [for_loop]. *)
Fixpoint run_cells {C S : Type} (step : C -> S -> option (flow S))
    (cs : list C) (s : S) : option (flow S) :=
  match cs with
  | [] => Some (Continue s)
  | c :: cs' =>
      match step c s with
      | Some (Continue s') => run_cells step cs' s'
      | stop => stop
      end
  end.

Section Cells.

Context {D : Type} {ops : DoubleOps D} {C : Type}.

(** One cell of either builder: [coef c] is the coefficient computed for the
    cell [c], [index c] the place it is stored at. *)
Definition cell_step (coef : C -> option D) (index : C -> Z) (c : C)
    (m : matrix D) : option (flow (matrix D)) :=
  r ← coef c;
  if is_sentinel r then Some (Return 0 m)
  else m' ← store (index c) (rectify r) m; Some (Continue m').

(** [cell_ok coef index len c]: the coefficient of [c] is computed, is not
    the sentinel, and its place lies in a matrix of [len] cells. *)
Definition cell_ok (coef : C -> option D) (index : C -> Z) (len : nat) (c : C) : Prop :=
  (exists r, coef c = Some r /\ is_sentinel r = false) /\
  0 <= index c < Z.of_nat len.

(** What a matrix [m'] owes to the cells [cs] written into [m]: the same
    size, the places of [cs] appended to the record of stores, each cell of
    [cs] holding its rectified coefficient, every other place as in [m]. *)
Definition filled (coef : C -> option D) (index : C -> Z) (cs : list C)
    (m m' : matrix D) : Prop :=
  length (cells m') = length (cells m) /\
  stored m' = stored m ++ (index <$> cs) /\
  (forall c r, c ∈ cs -> coef c = Some r ->
     load (cells m') (index c) = Some (rectify r)) /\
  (forall k, k ∉ index <$> cs -> load (cells m') k = load (cells m) k).

End Cells.

(** Row-major place of row [i], position [t], as [correlogram_delay]
    computes it: [i*dims[1]+t]. *)
Definition index_delay (T : Z) (c : Z * Z) : Z :=
  size_wrap (size_wrap (c.1 * T) + c.2).

(** The place [correlogram] computes for [delay] and [off]:
    [(delay-1)*dims[1]+off]. *)
Definition index_range (T : Z) (c : Z * Z) : Z :=
  size_wrap (size_wrap (size_wrap (c.1 - 1) * T) + c.2).

(** ** Vocabulary of the statements about binary64 *)

(** Two binary64 values that differ at most in the sign of a zero. *)
Definition sf_same (x y : SpecFloat.spec_float) : Prop :=
  x = y \/ exists s s', x = SpecFloat.S754_zero s /\ y = SpecFloat.S754_zero s'.

(** [same_double a b]: [a] and [b] are the same double, or are both zeros
    (of either sign). *)
Definition same_double (a b : float) : Prop :=
  sf_same (FloatOps.Prim2SF a) (FloatOps.Prim2SF b).

(** [0 <= x] as [<=] decides it: [x] is a zero or is positive; NaN is not. *)
Definition sf_nonneg (x : SpecFloat.spec_float) : Prop :=
  SpecFloat.SFleb (SpecFloat.S754_zero false) x = true.

(** Every place stored to holds a double [v] with [0 <= v]. *)
Definition nonneg_cells (m : matrix float) : Prop :=
  forall k, k ∈ stored m ->
    exists v, load (cells m) k = Some v /\ (0 <=? v)%float = true.


(** ** Concrete inputs *)

Module Examples.

(** The signal of the spec's end-to-end example: a ramp, twice. *)
Definition ramp : list float := [1; 2; 3; 4; 1; 2; 3; 4]%float.

(** The signal of the spec's failure example: a constant window, then a
    ramp. *)
Definition flat_then_ramp : list float := [5; 5; 5; 5; 1; 2; 3; 4]%float.


(** Two equal windows with Σx = 6, Σx² = 12, so Σx² - (Σx)²/4 = 3. *)
Definition echo : list float := [1; 1; 1; 3; 1; 1; 1; 3]%float.


(** Two windows of two samples near 2^27: x = (134217721, 134217724),
    y = (134217726, 134217723).  The squares exceed 2^53 and are rounded. *)
Definition large : list float :=
  [134217721; 134217724; 134217726; 134217723]%float.

(** Doubling samples, twice. *)
Definition doubling : list float := [1; 2; 4; 8; 1; 2; 4; 8]%float.

(** Doubling samples, then a constant stretch. *)
Definition doubling_then_flat : list float := [1; 2; 4; 8; 3; 3; 3; 3]%float.

(** A matrix of [n] cells, all [0.0]. *)
Definition blank (n : nat) : list float := repeat 0%float n.

(** No sample at all. *)
Definition silence : list float := [].

End Examples.

(** ** Proof steps for concrete inputs *)

Ltac solve_bounds :=
  unfold in_bounds, is_size, SIZE_MAX; repeat split; vm_compute;
  first [ reflexivity | intros Hcmp; discriminate Hcmp ].

Ltac solve_proper :=
  lazymatch goal with
  | |- proper ?c =>
      let r := eval vm_compute in c in
      lazymatch r with
      | Some ?v => exists v; split; vm_compute; reflexivity
      end
  | |- degenerate ?c =>
      let r := eval vm_compute in c in
      lazymatch r with
      | Some ?v => exists v; split; vm_compute; reflexivity
      end
  end.

Ltac solve_cells :=
  lazymatch goal with
  | |- Forall _ (grid ?lo ?hi ?T) =>
      let g := eval vm_compute in (grid lo hi T) in
      change (grid lo hi T) with g;
      repeat constructor; cbn [fst snd];
      first [ solve_proper
            | intros Hb; exfalso; unfold before in Hb; lia
            | intros _; solve_proper ]
  end.

(** Two values of [sf_same]: the same, or two zeros. *)
Ltac zero_cases :=
  first [ left; reflexivity | right; eexists _, _; split; reflexivity ].

(** The matrix a builder leaves on a concrete binary64 input. *)
Ltac run_builder :=
  lazymatch goal with
  | |- exists m', ?run = Some (?code, m') /\ _ =>
      let r := eval vm_compute in run in
      lazymatch r with
      | Some (_, ?m) => exists m
      end
  end.

(** ** [size_t] and buffers *)

Lemma size_wrap_small (z : Z) : is_size z -> size_wrap z = z.
Proof.
  unfold is_size, SIZE_MAX, size_wrap. intros Hz.
  apply Z.mod_small. lia.
Qed.

Lemma load_lookup {A : Type} (buf : list A) (i : Z) :
  0 <= i -> load buf i = buf !! Z.to_nat i.
Proof.
  intros Hi. unfold load.
  destruct (Z.leb_spec 0 i); [reflexivity | lia].
Qed.

Lemma load_in_bounds {A : Type} (buf : list A) (i : Z) :
  0 <= i < Z.of_nat (length buf) -> exists x, load buf i = Some x.
Proof.
  intros [Hlo Hhi]. rewrite load_lookup by exact Hlo.
  apply lookup_lt_is_Some. lia.
Qed.

Lemma load_seqZ (lo len i : Z) :
  0 <= i < len -> load (seqZ lo len) i = Some (lo + i).
Proof.
  intros Hi. rewrite load_lookup by lia.
  rewrite lookup_seqZ. split; lia.
Qed.

(** ** The loop of [corrcoef] *)

Section CorrcoefLoop.

Context {D : Type} {ops : DoubleOps D}.

Lemma accumulate_nil (s : sums D) : accumulate s [] [] = s.
Proof. destruct s; reflexivity. Qed.

(** In bounds, the loop reads the two windows in step and ends with their
    sums. *)
Lemma corrcoef_loop_windows (data : list D) (count : nat) :
  forall (i j : Z) (s : sums D),
    0 <= i -> 0 <= j ->
    i + Z.of_nat count <= Z.of_nat (length data) ->
    j + Z.of_nat count <= Z.of_nat (length data) ->
    Z.of_nat (length data) <= SIZE_MAX ->
    corrcoef_loop data count i j s =
    Some (accumulate s (take count (drop (Z.to_nat i) data))
                       (take count (drop (Z.to_nat j) data))).
Proof.
  induction count as [| count IH]; intros i j s Hi Hj Hix Hjy Hlen.
  - simpl. rewrite accumulate_nil. reflexivity.
  - destruct (load_in_bounds data i) as [x Hx]; [lia |].
    destruct (load_in_bounds data j) as [y Hy]; [lia |].
    cbn [corrcoef_loop]. unfold corrcoef_body. rewrite Hx, Hy. cbn [mbind option_bind].
    rewrite !size_wrap_small by (unfold is_size; lia).
    rewrite IH by lia.
    rewrite load_lookup in Hx, Hy by lia.
    rewrite (drop_S data x (Z.to_nat i)) by exact Hx.
    rewrite (drop_S data y (Z.to_nat j)) by exact Hy.
    replace (Z.to_nat (i + 1)) with (S (Z.to_nat i)) by lia.
    replace (Z.to_nat (j + 1)) with (S (Z.to_nat j)) by lia.
    reflexivity.
Qed.

Lemma corrcoef_finish_accumulate (xs ys : list D) (n : Z) :
  corrcoef_finish (accumulate sums_zero xs ys) n =
  if deqb (pearson_p_std xs ys n) (d_of_Z 0) then d_of_Z (-2) else pearson xs ys n.
Proof. reflexivity. Qed.

(** The number of iterations when [off_x + n] does not wrap. *)
Lemma corrcoef_count (off_x n : Z) :
  0 <= off_x -> 0 <= n -> off_x + n <= SIZE_MAX ->
  Z.to_nat (size_wrap (off_x + n) - off_x) = Z.to_nat n.
Proof.
  intros Hx Hn Hsum. rewrite size_wrap_small by (unfold is_size; lia).
  f_equal. lia.
Qed.

(** [corrcoef] on two windows in bounds. *)
Lemma corrcoef_in_bounds (data : list D) (off_x off_y n : Z) :
  in_bounds data off_x n -> in_bounds data off_y n ->
  Z.of_nat (length data) <= SIZE_MAX ->
  corrcoef data off_x off_y n =
  Some (let xs := window data off_x n in
        let ys := window data off_y n in
        if deqb (pearson_p_std xs ys n) (d_of_Z 0) then d_of_Z (-2)
        else pearson xs ys n).
Proof.
  intros (Hx & Hn & Hxn) (Hy & _ & Hyn) Hlen.
  unfold corrcoef. cbv zeta.
  rewrite corrcoef_count by lia.
  rewrite corrcoef_loop_windows by lia.
  cbn [mbind option_bind]. rewrite corrcoef_finish_accumulate. reflexivity.
Qed.

End CorrcoefLoop.

(** ** Loops *)

Section Loops.

Context {C S : Type}.

Lemma run_cells_app (step : C -> S -> option (flow S)) (a b : list C) (s : S) :
  run_cells step (a ++ b) s =
  match run_cells step a s with
  | Some (Continue s') => run_cells step b s'
  | stop => stop
  end.
Proof.
  revert s. induction a as [| c a IH]; intros s; simpl.
  - reflexivity.
  - destruct (step c s) as [[s' | code s'] |]; [apply IH | reflexivity | reflexivity].
Qed.

Lemma run_cells_ext (f g : C -> S -> option (flow S)) (cs : list C) (s : S) :
  (forall c s', c ∈ cs -> f c s' = g c s') ->
  run_cells f cs s = run_cells g cs s.
Proof.
  revert s. induction cs as [| c cs IH]; intros s Hfg; simpl.
  - reflexivity.
  - rewrite Hfg by left.
    destruct (g c s) as [[s' | code s'] |]; try reflexivity.
    apply IH. intros c' s'' Hc'. apply Hfg. right. exact Hc'.
Qed.

(** A loop over all cells of a list that is mapped over. *)
Lemma run_cells_fmap {B : Type} (h : B -> C) (step : C -> S -> option (flow S))
    (bs : list B) (s : S) :
  run_cells step (h <$> bs) s = run_cells (fun b => step (h b)) bs s.
Proof.
  revert s. induction bs as [| b bs IH]; intros s; simpl.
  - reflexivity.
  - destruct (step (h b) s) as [[s' | code s'] |]; [apply IH | reflexivity | reflexivity].
Qed.

(** Two nested loops are one loop over the concatenated rows. *)
Lemma run_cells_bind {B : Type} (row : B -> list C)
    (step : C -> S -> option (flow S)) (bs : list B) (s : S) :
  run_cells (fun b s' => run_cells step (row b) s') bs s =
  run_cells step (bs ≫= row) s.
Proof.
  revert s. induction bs as [| b bs IH]; intros s; simpl.
  - reflexivity.
  - rewrite run_cells_app.
    destruct (run_cells step (row b) s) as [[s' | code s'] |];
      [apply IH | reflexivity | reflexivity].
Qed.

End Loops.

(** A [for] loop whose counter stays below [SIZE_MAX] visits
    [i, i+1, ..., i+count-1]. *)
Lemma for_loop_run_cells {S : Type} (body : Z -> S -> option (flow S)) (count : nat) :
  forall (i : Z) (s : S),
    0 <= i -> i + Z.of_nat count <= SIZE_MAX ->
    for_loop body count i s = run_cells body (seqZ i (Z.of_nat count)) s.
Proof.
  induction count as [| count IH]; intros i s Hi Hmax.
  - reflexivity.
  - rewrite seqZ_cons by lia. cbn [for_loop run_cells].
    destruct (body i s) as [[s' | code s'] |]; try reflexivity.
    rewrite size_wrap_small by (unfold is_size; lia).
    rewrite IH by lia. do 2 f_equal. lia.
Qed.

Lemma for_range_run_cells {S : Type} (lo hi : Z) (body : Z -> S -> option (flow S)) (s : S) :
  0 <= lo -> hi <= SIZE_MAX ->
  for_range lo hi body s = run_cells body (seqZ lo (hi - lo)) s.
Proof.
  intros Hlo Hhi. unfold for_range.
  destruct (Z.le_gt_cases hi lo) as [Hle | Hgt].
  - replace (Z.to_nat (hi - lo)) with 0%nat by lia.
    rewrite seqZ_nil by lia. reflexivity.
  - rewrite for_loop_run_cells by lia.
    rewrite Z2Nat.id by lia. reflexivity.
Qed.

(** The two nested loops of a builder visit the cells of [grid]. *)
Lemma nested_for_range_grid {S : Type} (lo hi T : Z)
    (step : Z * Z -> S -> option (flow S)) (s : S) :
  0 <= lo -> hi <= SIZE_MAX -> T <= SIZE_MAX ->
  for_range lo hi (fun i s' => for_range 0 T (fun t s'' => step (i, t) s'') s') s =
  run_cells step (grid lo hi T) s.
Proof.
  intros Hlo Hhi HT. rewrite for_range_run_cells by assumption.
  unfold grid. rewrite <- run_cells_bind.
  apply run_cells_ext. intros i s' _.
  rewrite for_range_run_cells by lia.
  rewrite Z.sub_0_r. rewrite run_cells_fmap. reflexivity.
Qed.

(** *** Membership and order in [grid] *)

Lemma elem_of_grid (lo hi T i t : Z) :
  (i, t) ∈ grid lo hi T <-> (lo <= i < hi /\ 0 <= t < T).
Proof.
  unfold grid. rewrite list_elem_of_bind. split.
  - intros (i' & Ht & Hi).
    apply elem_of_seqZ in Hi.
    apply list_elem_of_fmap in Ht as (t' & Heq & Ht').
    apply elem_of_seqZ in Ht'. inversion Heq; subst. lia.
  - intros [Hi Ht]. exists i. split.
    + apply list_elem_of_fmap. exists t. split; [reflexivity |].
      apply elem_of_seqZ. lia.
    + apply elem_of_seqZ. lia.
Qed.

Lemma NoDup_grid (lo hi T : Z) : NoDup (grid lo hi T).
Proof.
  unfold grid. apply NoDup_bind.
  - intros i1 i2 c _ _ H1 H2.
    apply list_elem_of_fmap in H1 as (t1 & -> & _).
    apply list_elem_of_fmap in H2 as (t2 & Heq & _).
    inversion Heq. reflexivity.
  - intros i _. apply NoDup_fmap_2_strong; [| apply NoDup_seqZ].
    intros t1 t2 _ _ Heq. inversion Heq. reflexivity.
  - apply NoDup_seqZ.
Qed.

Lemma seqZ_split (m n k : Z) :
  0 <= k < n ->
  seqZ m n = seqZ m k ++ (m + k) :: seqZ (m + k + 1) (n - (k + 1)).
Proof.
  intros Hk.
  replace n with (k + (1 + (n - (k + 1)))) at 1 by lia.
  rewrite seqZ_app by lia. f_equal.
  rewrite seqZ_cons by lia. f_equal. f_equal; lia.
Qed.

(** [grid] cut at the cell [(i0, t0)]: the cells before it, the cell, the
    cells after it. *)
Lemma grid_split (lo hi T i0 t0 : Z) :
  lo <= i0 < hi -> 0 <= t0 < T ->
  exists pre post : list (Z * Z),
    grid lo hi T = pre ++ (i0, t0) :: post /\
    (forall i t, (i, t) ∈ pre <-> (lo <= i /\ 0 <= t < T /\ before i t i0 t0)).
Proof.
  intros Hi Ht.
  exists (grid lo i0 T ++ ((fun t => (i0, t)) <$> seqZ 0 t0)),
         (((fun t => (i0, t)) <$> seqZ (t0 + 1) (T - (t0 + 1))) ++ grid (i0 + 1) hi T).
  split.
  - unfold grid.
    rewrite (seqZ_split lo (hi - lo) (i0 - lo)) by lia.
    rewrite bind_app, bind_cons.
    replace (lo + (i0 - lo)) with i0 by lia.
    replace (hi - lo - (i0 - lo + 1)) with (hi - (i0 + 1)) by lia.
    rewrite (seqZ_split 0 T t0) at 1 by lia.
    rewrite fmap_app, fmap_cons. rewrite !Z.add_0_l.
    rewrite <- !app_assoc. reflexivity.
  - intros i t. rewrite elem_of_app, elem_of_grid, list_elem_of_fmap.
    unfold before. split.
    + intros [[Hi' Ht'] | (t' & Heq & Ht')].
      * lia.
      * apply elem_of_seqZ in Ht'. inversion Heq; subst. lia.
    + intros (Hlo & Ht' & [Hlt | [-> Hlt]]).
      * left. lia.
      * right. exists t. split; [reflexivity | apply elem_of_seqZ; lia].
Qed.

(** ** One pass over a list of cells *)

Section CellRuns.

Context {D : Type} {ops : DoubleOps D} {C : Type}.
Variables (coef : C -> option D) (index : C -> Z).

Lemma store_in_range (idx : Z) (v : D) (m : matrix D) :
  0 <= idx < Z.of_nat (length (cells m)) ->
  store idx v m = Some (Matrix (<[Z.to_nat idx := v]> (cells m)) (stored m ++ [idx])).
Proof.
  intros Hidx. unfold store. destruct (decide _) as [_ | Hno]; [reflexivity | contradiction].
Qed.

Lemma load_insert_eq (l : list D) (idx : Z) (v : D) :
  0 <= idx < Z.of_nat (length l) ->
  load (<[Z.to_nat idx := v]> l) idx = Some v.
Proof.
  intros Hidx. rewrite load_lookup by lia.
  apply list_lookup_insert_eq. lia.
Qed.

Lemma load_insert_ne (l : list D) (idx k : Z) (v : D) :
  0 <= idx -> k <> idx ->
  load (<[Z.to_nat idx := v]> l) k = load l k.
Proof.
  intros Hidx Hne. unfold load.
  destruct (Z.leb_spec 0 k) as [Hk | Hk]; [| reflexivity].
  apply list_lookup_insert_ne. lia.
Qed.

(** The step on a cell that is [cell_ok]. *)
Lemma cell_step_ok (c : C) (m : matrix D) :
  cell_ok coef index (length (cells m)) c ->
  exists r, coef c = Some r /\ is_sentinel r = false /\
    cell_step coef index c m =
    Some (Continue (Matrix (<[Z.to_nat (index c) := rectify r]> (cells m))
                           (stored m ++ [index c]))).
Proof.
  intros [(r & Hr & Hns) Hidx]. exists r. split; [exact Hr | split; [exact Hns |]].
  unfold cell_step. rewrite Hr. cbn [mbind option_bind]. rewrite Hns.
  rewrite store_in_range by exact Hidx. reflexivity.
Qed.

(** The step on a cell whose coefficient is the sentinel. *)
Lemma cell_step_sentinel (c : C) (m : matrix D) (r : D) :
  coef c = Some r -> is_sentinel r = true ->
  cell_step coef index c m = Some (Return 0 m).
Proof.
  intros Hr Hs. unfold cell_step. rewrite Hr. cbn [mbind option_bind].
  rewrite Hs. reflexivity.
Qed.

(** A pass over cells that are all [cell_ok], at pairwise distinct places,
    runs to its end and fills them. *)
Lemma run_cells_success (cs : list C) :
  forall m : matrix D,
    Forall (cell_ok coef index (length (cells m))) cs ->
    NoDup (index <$> cs) ->
    exists m', run_cells (cell_step coef index) cs m = Some (Continue m') /\
               filled coef index cs m m'.
Proof.
  induction cs as [| c cs IH]; intros m Hok Hnd.
  - exists m. split; [reflexivity |].
    unfold filled. simpl. rewrite app_nil_r.
    split; [reflexivity | split; [reflexivity | split]].
    + intros c r Hc. inversion Hc.
    + reflexivity.
  - apply Forall_cons in Hok as [Hc Hcs].
    rewrite fmap_cons in Hnd. apply NoDup_cons in Hnd as [Hfresh Hnd].
    destruct (cell_step_ok c m Hc) as (r & Hr & Hns & Hstep).
    set (m1 := Matrix (<[Z.to_nat (index c) := rectify r]> (cells m))
                      (stored m ++ [index c])) in *.
    assert (Hlen1 : length (cells m1) = length (cells m))
      by (unfold m1; cbn [cells]; apply length_insert).
    destruct (IH m1) as (m' & Hrun & Hlen & Hst & Hval & Hframe).
    { rewrite Hlen1. exact Hcs. }
    { exact Hnd. }
    exists m'. split.
    + cbn [run_cells]. rewrite Hstep. exact Hrun.
    + destruct Hc as [_ Hidx].
      split; [congruence | split; [| split]].
      * rewrite Hst. unfold m1. cbn [stored]. rewrite fmap_cons, <- app_assoc. reflexivity.
      * intros c' r' Hc' Hr'. apply elem_of_cons in Hc' as [-> | Hc'].
        -- rewrite Hframe by exact Hfresh.
           unfold m1. cbn [cells]. rewrite load_insert_eq by exact Hidx. congruence.
        -- apply Hval; assumption.
      * intros k Hk. rewrite fmap_cons in Hk. apply not_elem_of_cons in Hk as [Hne Hk].
        rewrite Hframe by exact Hk.
        unfold m1. cbn [cells]. apply load_insert_ne; [lia | exact Hne].
Qed.

(** A pass that meets a sentinel after the cells [pre] stops there: it
    returns [0] and the matrix is as [pre] left it. *)
Lemma run_cells_failure (pre post : list C) (c0 : C) (r0 : D) (m : matrix D) :
  Forall (cell_ok coef index (length (cells m))) pre ->
  NoDup (index <$> pre) ->
  coef c0 = Some r0 -> is_sentinel r0 = true ->
  exists m', run_cells (cell_step coef index) (pre ++ c0 :: post) m = Some (Return 0 m') /\
             filled coef index pre m m'.
Proof.
  intros Hok Hnd Hr0 Hs.
  destruct (run_cells_success pre m Hok Hnd) as (m' & Hrun & Hfilled).
  exists m'. split; [| exact Hfilled].
  rewrite run_cells_app, Hrun. cbn [run_cells].
  rewrite (cell_step_sentinel c0 m' r0 Hr0 Hs). reflexivity.
Qed.

End CellRuns.

(** ** The builders as passes over [grid] *)

Section Builders.

Context {D : Type} {ops : DoubleOps D}.

Lemma correlogram_delay_cells (sig : list D) (delays : list Z) (wlen Dn T : Z)
    (cgram : list D) :
  is_size Dn -> is_size T ->
  correlogram_delay sig delays wlen [Dn; T] cgram =
  finish (run_cells
            (cell_step (fun c => coef_delay sig delays wlen c.1 c.2) (index_delay T))
            (grid 0 Dn T) (Matrix cgram [])).
Proof.
  intros [_ HD] [_ HT]. unfold correlogram_delay. f_equal.
  change (load [Dn; T] 0) with (Some Dn). cbn [mbind option_bind].
  transitivity
    (run_cells
       (fun c m => delay ← load delays c.1;
                   fill_cell sig wlen c.2 (size_wrap (c.2 + delay)) (index_delay T c) m)
       (grid 0 Dn T) (Matrix cgram [])).
  - exact (nested_for_range_grid 0 Dn T _ _ (Z.le_refl 0) HD HT).
  - apply run_cells_ext. intros [i t] m _.
    unfold cell_step, coef_delay, fill_cell, is_sentinel. cbn [fst snd].
    destruct (load delays i) as [delay |]; [| reflexivity].
    cbn [mbind option_bind]. reflexivity.
Qed.

Lemma correlogram_cells (sig : list D) (wlen Dn T : Z) (cgram : list D) :
  is_size Dn -> is_size T ->
  correlogram sig wlen [Dn; T] cgram =
  finish (run_cells
            (cell_step (fun c => coef_range sig wlen c.1 c.2) (index_range T))
            (grid 1 Dn T) (Matrix cgram [])).
Proof.
  intros [_ HD] [_ HT]. unfold correlogram. f_equal.
  change (load [Dn; T] 0) with (Some Dn). cbn [mbind option_bind].
  exact (nested_for_range_grid 1 Dn T
           (cell_step (fun c => coef_range sig wlen c.1 c.2) (index_range T))
           _ ltac:(lia) HD HT).
Qed.

End Builders.

(** The places in row-major order, without wrap-around when the matrix fits
    in the address space. *)
Lemma index_delay_grid (Dn T len i t : Z) :
  0 <= i < Dn -> 0 <= t < T -> Dn * T <= len -> len <= SIZE_MAX ->
  index_delay T (i, t) = i * T + t /\ 0 <= i * T + t < len.
Proof.
  intros Hi Ht Hfit Hlen. unfold index_delay. cbn [fst snd].
  assert (i * T + T <= Dn * T) by nia.
  assert (0 <= i * T) by nia.
  rewrite (size_wrap_small (i * T)) by (unfold is_size; lia).
  rewrite size_wrap_small by (unfold is_size; lia).
  lia.
Qed.

Lemma index_range_grid (Dn T len delay off : Z) :
  1 <= delay < Dn -> 0 <= off < T -> (Dn - 1) * T <= len -> len <= SIZE_MAX ->
  Dn <= SIZE_MAX ->
  index_range T (delay, off) = (delay - 1) * T + off /\ 0 <= (delay - 1) * T + off < len.
Proof.
  intros Hd Hoff Hfit Hlen HD. unfold index_range. cbn [fst snd].
  assert ((delay - 1) * T + T <= (Dn - 1) * T) by nia.
  assert (0 <= (delay - 1) * T) by nia.
  rewrite (size_wrap_small (delay - 1)) by (unfold is_size; lia).
  rewrite (size_wrap_small ((delay - 1) * T)) by (unfold is_size; lia).
  rewrite size_wrap_small by (unfold is_size; lia).
  lia.
Qed.

(** Distinct cells have distinct places. *)
Lemma row_major_inj (T i t i' t' : Z) :
  0 <= t < T -> 0 <= t' < T -> i * T + t = i' * T + t' -> i = i' /\ t = t'.
Proof.
  intros Ht Ht' Heq.
  assert (i = i') by nia. subst i'. lia.
Qed.

Lemma NoDup_index_delay (Dn T len : Z) :
  Dn * T <= len -> len <= SIZE_MAX ->
  NoDup (index_delay T <$> grid 0 Dn T).
Proof.
  intros Hfit Hlen. apply NoDup_fmap_2_strong; [| apply NoDup_grid].
  intros [i t] [i' t'] Hc Hc' Heq.
  apply elem_of_grid in Hc as [Hi Ht]. apply elem_of_grid in Hc' as [Hi' Ht'].
  destruct (index_delay_grid Dn T len i t) as [E _]; try assumption.
  destruct (index_delay_grid Dn T len i' t') as [E' _]; try assumption.
  rewrite E, E' in Heq.
  destruct (row_major_inj T i t i' t') as [-> ->]; [assumption .. | reflexivity].
Qed.

Lemma NoDup_index_range (Dn T len : Z) :
  (Dn - 1) * T <= len -> len <= SIZE_MAX -> Dn <= SIZE_MAX ->
  NoDup (index_range T <$> grid 1 Dn T).
Proof.
  intros Hfit Hlen HD. apply NoDup_fmap_2_strong; [| apply NoDup_grid].
  intros [i t] [i' t'] Hc Hc' Heq.
  apply elem_of_grid in Hc as [Hi Ht]. apply elem_of_grid in Hc' as [Hi' Ht'].
  destruct (index_range_grid Dn T len i t) as [E _]; try assumption.
  destruct (index_range_grid Dn T len i' t') as [E' _]; try assumption.
  rewrite E, E' in Heq.
  destruct (row_major_inj T (i - 1) t (i' - 1) t') as [Hii ->]; [assumption .. |].
  f_equal. lia.
Qed.

Lemma grid_shift (lo hi T : Z) :
  grid (1 + lo) (1 + hi) T = (fun c => (1 + c.1, c.2)) <$> grid lo hi T.
Proof.
  unfold grid. replace (1 + hi - (1 + lo)) with (hi - lo) by lia.
  rewrite <- fmap_add_seqZ. generalize (seqZ lo (hi - lo)) as rows.
  induction rows as [| i rows IH]; [reflexivity |].
  rewrite fmap_cons, !bind_cons, fmap_app, IH. f_equal.
  rewrite <- list_fmap_compose. reflexivity.
Qed.


(** ** [for] loops whose body does nothing *)

Lemma for_loop_skip {S : Type} (body : Z -> S -> option (flow S)) (count : nat) :
  forall (i : Z) (s : S),
    (forall i' s', body i' s' = Some (Continue s')) ->
    for_loop body count i s = Some (Continue s).
Proof.
  induction count as [| count IH]; intros i s Hskip; [reflexivity |].
  cbn [for_loop]. rewrite Hskip. apply IH. exact Hskip.
Qed.

(** ** Invariants of [for] loops *)

Lemma is_size_wrap (z : Z) : is_size (size_wrap z).
Proof.
  unfold is_size, size_wrap, SIZE_MAX.
  pose proof (Z.mod_pos_bound z (2 ^ 64) ltac:(lia)). lia.
Qed.

(** A property of the state that every run of the body keeps is kept by the
    loop; the counter is a [size_t] throughout. *)
Lemma for_loop_invariant {S : Type} (P : S -> Prop)
    (body : Z -> S -> option (flow S)) (count : nat) :
  (forall i s f, is_size i -> P s -> body i s = Some f -> P (flow_state f)) ->
  forall i s f, is_size i -> P s ->
    for_loop body count i s = Some f -> P (flow_state f).
Proof.
  intros Hbody. induction count as [| count IH]; intros i s f Hi Hs Hrun.
  - cbn [for_loop] in Hrun. injection Hrun as <-. exact Hs.
  - cbn [for_loop] in Hrun.
    destruct (body i s) as [[s' | code s'] |] eqn:Hstep; [| | discriminate].
    + apply (IH (size_wrap (i + 1)) s' f); [apply is_size_wrap | | exact Hrun].
      exact (Hbody i s (Continue s') Hi Hs Hstep).
    + injection Hrun as <-. exact (Hbody i s (Return code s') Hi Hs Hstep).
Qed.

(** ** A builder's pass over its grid *)

Section GridPass.

Context {D : Type} {ops : DoubleOps D}.
Variables (coef : Z -> Z -> option D) (place : Z -> Z -> Z).
Variables (index : Z * Z -> Z) (lo Dn T : Z) (cgram : list D).

Hypothesis index_place :
  forall i t, lo <= i < Dn -> 0 <= t < T ->
    index (i, t) = place i t /\ 0 <= place i t < Z.of_nat (length cgram).
Hypothesis index_NoDup : NoDup (index <$> grid lo Dn T).

Let step := cell_step (fun c => coef c.1 c.2) index.

Lemma grid_cells_ok (cs : list (Z * Z)) :
  (forall i t, (i, t) ∈ cs -> lo <= i < Dn /\ 0 <= t < T /\ proper (coef i t)) ->
  Forall (cell_ok (fun c => coef c.1 c.2) index (length cgram)) cs.
Proof using index_place.
  intros Hcs. apply Forall_forall. intros [i t] Hc.
  destruct (Hcs i t Hc) as (Hi & Ht & Hp).
  split; [exact Hp |]. destruct (index_place i t Hi Ht) as [-> Hr]. exact Hr.
Qed.

(** No sentinel anywhere: the pass runs to its end and fills the grid. *)
Lemma grid_pass_success :
  (forall i t, lo <= i < Dn -> 0 <= t < T -> proper (coef i t)) ->
  exists m', run_cells step (grid lo Dn T) (Matrix cgram []) = Some (Continue m') /\
             filled (fun c => coef c.1 c.2) index (grid lo Dn T) (Matrix cgram []) m'.
Proof using index_place index_NoDup.
  intros Hall. apply run_cells_success; [| exact index_NoDup].
  apply grid_cells_ok. intros i t Hc. apply elem_of_grid in Hc as [Hi Ht].
  split; [exact Hi | split; [exact Ht | apply Hall; assumption]].
Qed.

(** The first sentinel is at [(i0, t0)]: the pass stops there with the cells
    before it filled. *)
Lemma grid_pass_failure (i0 t0 : Z) :
  lo <= i0 < Dn -> 0 <= t0 < T ->
  degenerate (coef i0 t0) ->
  (forall i t, lo <= i -> 0 <= t < T -> before i t i0 t0 -> proper (coef i t)) ->
  exists m', run_cells step (grid lo Dn T) (Matrix cgram []) = Some (Return 0 m') /\
             partial_fill coef place lo T i0 t0 cgram m'.
Proof using index_place index_NoDup.
  intros Hi0 Ht0 (r0 & Hr0 & Hs0) Hbefore.
  destruct (grid_split lo Dn T i0 t0 Hi0 Ht0) as (pre & post & Hgrid & Hpre).
  assert (Hin : forall i t, (i, t) ∈ pre -> lo <= i < Dn /\ 0 <= t < T).
  { intros i t Hc. apply elem_of_grid. rewrite Hgrid. apply elem_of_app. left. exact Hc. }
  assert (Hnd : NoDup (index <$> pre)).
  { rewrite Hgrid, fmap_app in index_NoDup. apply NoDup_app in index_NoDup. tauto. }
  destruct (run_cells_failure (fun c => coef c.1 c.2) index pre post (i0, t0) r0
              (Matrix cgram [])) as (m' & Hrun & Hlen & Hst & Hval & Hframe).
  { apply grid_cells_ok. intros i t Hc. destruct (Hin i t Hc) as [Hi Ht].
    split; [exact Hi | split; [exact Ht |]].
    apply Hpre in Hc as (Hlo & _ & Hb). apply Hbefore; assumption. }
  { exact Hnd. }
  { exact Hr0. }
  { exact Hs0. }
  exists m'. split; [unfold step; rewrite Hgrid; exact Hrun |].
  cbn [cells stored] in *. rewrite app_nil_l in Hst.
  assert (Hstored : forall k, k ∈ stored m' <->
            exists i t, lo <= i /\ 0 <= t < T /\ before i t i0 t0 /\ k = place i t).
  { intros k. rewrite Hst, list_elem_of_fmap. split.
    - intros ([i t] & -> & Hc). destruct (Hin i t Hc) as [Hi Ht].
      apply Hpre in Hc as (Hlo & _ & Hb). exists i, t.
      destruct (index_place i t Hi Ht) as [E _]. auto.
    - intros (i & t & Hlo & Ht & Hb & ->). exists (i, t).
      assert (Hc : (i, t) ∈ pre) by (apply Hpre; auto).
      destruct (Hin i t Hc) as [Hi _].
      destruct (index_place i t Hi Ht) as [E _]. auto. }
  split; [exact Hlen | split; [exact Hstored | split]].
  - intros i t r Hlo Ht Hb Hr.
    assert (Hc : (i, t) ∈ pre) by (apply Hpre; auto).
    destruct (Hin i t Hc) as [Hi _].
    destruct (index_place i t Hi Ht) as [<- _].
    apply (Hval (i, t) r Hc Hr).
  - intros k Hk. apply Hframe. rewrite <- Hst. exact Hk.
Qed.

End GridPass.

(** ** The claims about control flow and stores: any arithmetic *)

Section Claims.

Context {D : Type} {ops : DoubleOps D}.

Lemma index_delay_place (Dn T : Z) (cgram : list D) :
  Dn * T <= Z.of_nat (length cgram) -> Z.of_nat (length cgram) <= SIZE_MAX ->
  forall i t, 0 <= i < Dn -> 0 <= t < T ->
    index_delay T (i, t) = i * T + t /\ 0 <= i * T + t < Z.of_nat (length cgram).
Proof.
  intros Hfit Hlen i t Hi Ht.
  exact (index_delay_grid Dn T _ i t Hi Ht Hfit Hlen).
Qed.

Lemma index_range_place (Dn T : Z) (cgram : list D) :
  Dn <= SIZE_MAX ->
  (Dn - 1) * T <= Z.of_nat (length cgram) -> Z.of_nat (length cgram) <= SIZE_MAX ->
  forall d o, 1 <= d < Dn -> 0 <= o < T ->
    index_range T (d, o) = (d - 1) * T + o /\
    0 <= (d - 1) * T + o < Z.of_nat (length cgram).
Proof.
  intros HD Hfit Hlen d o Hd Ho.
  exact (index_range_grid Dn T _ d o Hd Ho Hfit Hlen HD).
Qed.

(** No sentinel anywhere: [correlogram_delay] returns [1]. *)
Lemma correlogram_delay_success (sig : list D) (delays : list Z) (wlen Dn T : Z)
    (cgram : list D) :
  is_size Dn -> is_size T ->
  Dn * T <= Z.of_nat (length cgram) -> Z.of_nat (length cgram) <= SIZE_MAX ->
  (forall i t, 0 <= i < Dn -> 0 <= t < T -> proper (coef_delay sig delays wlen i t)) ->
  exists m', correlogram_delay sig delays wlen [Dn; T] cgram = Some (1, m').
Proof.
  intros HD HT Hfit Hlen Hall.
  destruct (grid_pass_success (coef_delay sig delays wlen) (fun i t => i * T + t)
              (index_delay T) 0 Dn T cgram
              (index_delay_place Dn T cgram Hfit Hlen)
              (NoDup_index_delay Dn T _ Hfit Hlen) Hall)
    as (m' & Hrun & _).
  exists m'. rewrite correlogram_delay_cells by assumption. rewrite Hrun. reflexivity.
Qed.

(** C1, as amended.  For a buffer, offsets and a length [n > 0] with both
    windows in bounds, the loop of [corrcoef] ends with the five sums
    Σx, Σy, Σxy, Σx², Σy² of the paired windows, each accumulated from [0.0]
    in the order of the samples, and [corrcoef] returns [cov / p_std] with
    [cov = Σxy - (Σx·Σy)/n] and
    [p_std = sqrt(Σx² - (Σx)²/n) · sqrt(Σy² - (Σy)²/n)] unless [p_std == 0],
    in which case it returns [-2]. *)
Theorem corrcoef_single_pass (data : list D) (off_x off_y n : Z) :
  in_bounds data off_x n -> in_bounds data off_y n -> 0 < n ->
  Z.of_nat (length data) <= SIZE_MAX ->
  let xs := window data off_x n in
  let ys := window data off_y n in
  corrcoef_loop data (Z.to_nat n) off_x off_y sums_zero =
    Some (Sums (dsum xs) (dsum ys) (dot xs ys) (dot xs xs) (dot ys ys)) /\
  corrcoef data off_x off_y n =
    Some (if deqb (pearson_p_std xs ys n) (d_of_Z 0) then d_of_Z (-2)
          else ddiv (pearson_cov xs ys n) (pearson_p_std xs ys n)).
Proof.
  intros Hx Hy Hn Hlen xs ys. split.
  - destruct Hx as (Hx0 & _ & Hxn), Hy as (Hy0 & _ & Hyn).
    rewrite corrcoef_loop_windows by lia. reflexivity.
  - exact (corrcoef_in_bounds data off_x off_y n Hx Hy Hlen).
Qed.


(** C7.  For [D >= 1], [correlogram] with [dims = [D, T]] returns the same
    code and leaves the same matrix, by the same stores in the same order,
    as [correlogram_delay] with the delays [1, 2, ..., D-1] and
    [dims = [D-1, T]]. *)
Theorem correlogram_refines_delay_list (sig : list D) (wlen Dn T : Z) (cgram : list D) :
  1 <= Dn -> is_size Dn -> is_size T ->
  correlogram sig wlen [Dn; T] cgram =
  correlogram_delay sig (seqZ 1 (Dn - 1)) wlen [Dn - 1; T] cgram.
Proof.
  intros H1 HD HT.
  rewrite correlogram_cells by assumption.
  rewrite correlogram_delay_cells by (unfold is_size in *; lia).
  f_equal. replace Dn with (1 + (Dn - 1)) at 1 by lia.
  change 1 with (1 + 0) at 1. rewrite grid_shift, run_cells_fmap.
  apply run_cells_ext. intros [i t] m Hc. apply elem_of_grid in Hc as [Hi Ht].
  unfold cell_step, coef_range, coef_delay, index_range, index_delay. cbn [fst snd].
  rewrite load_seqZ by lia. cbn [mbind option_bind].
  replace (1 + i - 1) with i by lia.
  rewrite (size_wrap_small i) by (unfold is_size in *; lia).
  reflexivity.
Qed.

(** C10.  With [dims[0] == 0] or [dims[1] == 0], [correlogram_delay] stores
    nothing and returns [1]; with [dims[0] <= 1] or [dims[1] == 0],
    [correlogram] stores nothing and returns [1].  [cgram] is unchanged. *)
Theorem builders_vacuous_on_empty_dims (sig : list D) (delays : list Z)
    (wlen Dn T : Z) (cgram : list D) :
  (Dn = 0 \/ T = 0 ->
   correlogram_delay sig delays wlen [Dn; T] cgram = Some (1, Matrix cgram [])) /\
  (Dn <= 1 \/ T = 0 ->
   correlogram sig wlen [Dn; T] cgram = Some (1, Matrix cgram [])).
Proof.
  split; intros [HD | HT].
  - subst Dn. reflexivity.
  - subst T. unfold correlogram_delay.
    change (load [Dn; 0] 0) with (Some Dn). cbn [mbind option_bind].
    unfold for_range at 1. rewrite for_loop_skip; [reflexivity |].
    intros i m. reflexivity.
  - unfold correlogram.
    change (load [Dn; T] 0) with (Some Dn). cbn [mbind option_bind].
    unfold for_range at 1. replace (Z.to_nat (Dn - 1)) with 0%nat by lia.
    reflexivity.
  - subst T. unfold correlogram.
    change (load [Dn; 0] 0) with (Some Dn). cbn [mbind option_bind].
    unfold for_range at 1. rewrite for_loop_skip; [reflexivity |].
    intros i m. reflexivity.
Qed.


(** C4.  Both builders: when the coefficient of the cell [(i0, t0)] is [-2]
    and those of the cells before it (rows outer, positions inner) are not,
    the builder returns [0]; the stores it made are exactly those of the
    cells before [(i0, t0)], each of which holds its value, and every other
    place of [cgram] is as it was.  When no cell yields [-2], the builder
    returns [1]. *)
Theorem builders_abort_on_sentinel (sig : list D) (delays : list Z) (wlen Dn T : Z)
    (cgram : list D) :
  is_size Dn -> is_size T -> Z.of_nat (length cgram) <= SIZE_MAX ->
  (Dn * T <= Z.of_nat (length cgram) ->
   (forall i0 t0, 0 <= i0 < Dn -> 0 <= t0 < T ->
      degenerate (coef_delay sig delays wlen i0 t0) ->
      (forall i t, 0 <= i -> 0 <= t < T -> before i t i0 t0 ->
         proper (coef_delay sig delays wlen i t)) ->
      exists m',
        correlogram_delay sig delays wlen [Dn; T] cgram = Some (0, m') /\
        partial_fill (coef_delay sig delays wlen) (fun i t => i * T + t)
          0 T i0 t0 cgram m') /\
   ((forall i t, 0 <= i < Dn -> 0 <= t < T -> proper (coef_delay sig delays wlen i t)) ->
      exists m', correlogram_delay sig delays wlen [Dn; T] cgram = Some (1, m'))) /\
  ((Dn - 1) * T <= Z.of_nat (length cgram) ->
   (forall d0 o0, 1 <= d0 < Dn -> 0 <= o0 < T ->
      degenerate (coef_range sig wlen d0 o0) ->
      (forall d o, 1 <= d -> 0 <= o < T -> before d o d0 o0 ->
         proper (coef_range sig wlen d o)) ->
      exists m',
        correlogram sig wlen [Dn; T] cgram = Some (0, m') /\
        partial_fill (coef_range sig wlen) (fun d o => (d - 1) * T + o)
          1 T d0 o0 cgram m') /\
   ((forall d o, 1 <= d < Dn -> 0 <= o < T -> proper (coef_range sig wlen d o)) ->
      exists m', correlogram sig wlen [Dn; T] cgram = Some (1, m'))).
Proof.
  intros HD HT Hlen.
  assert (HDmax : Dn <= SIZE_MAX) by (unfold is_size in *; lia).
  split; intros Hfit.
  - pose proof (index_delay_place Dn T cgram Hfit Hlen) as Hpd.
    pose proof (NoDup_index_delay Dn T _ Hfit Hlen) as Hnd.
    split.
    + intros i0 t0 Hi0 Ht0 Hdeg Hbefore.
      destruct (grid_pass_failure _ _ _ _ _ _ _ Hpd Hnd i0 t0 Hi0 Ht0 Hdeg Hbefore)
        as (m' & Hrun & Hpart).
      exists m'. split; [| exact Hpart].
      rewrite correlogram_delay_cells by assumption. rewrite Hrun. reflexivity.
    + intros Hall.
      exact (correlogram_delay_success sig delays wlen Dn T cgram HD HT Hfit Hlen Hall).
  - pose proof (index_range_place Dn T cgram HDmax Hfit Hlen) as Hpr.
    pose proof (NoDup_index_range Dn T _ Hfit Hlen HDmax) as Hnr.
    split.
    + intros d0 o0 Hd0 Ho0 Hdeg Hbefore.
      destruct (grid_pass_failure _ _ _ _ _ _ _ Hpr Hnr d0 o0 Hd0 Ho0 Hdeg Hbefore)
        as (m' & Hrun & Hpart).
      exists m'. split; [| exact Hpart].
      rewrite correlogram_cells by assumption. rewrite Hrun. reflexivity.
    + intros Hall.
      destruct (grid_pass_success _ _ _ _ _ _ _ Hpr Hnr Hall) as (m' & Hrun & _).
      exists m'. rewrite correlogram_cells by assumption. rewrite Hrun. reflexivity.
Qed.


End Claims.

(** ** binary64: what the specification of the operations gives

    The kernel specifies each operation of binary64 on [spec_float]
    ([FloatAxioms]).  Two families of facts are read off that
    specification: how the operations behave under negation and under a
    change of the sign of a zero, and the sign of what rounding returns. *)

Section SpecNegation.

Import SpecFloat.
Variables prec emax : Z.

Lemma round_aux_opp s m e l :
  SFopp (binary_round_aux prec emax s m e l) = binary_round_aux prec emax (negb s) m e l.
Proof.
  unfold binary_round_aux.
  destruct (shr_fexp prec emax m e l) as [mrs' e'].
  destruct (shr_fexp prec emax _ e' loc_Exact) as [mrs'' e''].
  destruct (shr_m mrs''); [reflexivity | | reflexivity].
  destruct (e'' <=? emax - prec)%Z; reflexivity.
Qed.

Lemma SFopp_involutive x : SFopp (SFopp x) = x.
Proof. destruct x; cbn; rewrite ?negb_involutive; reflexivity. Qed.

Lemma SFmul_opp_r x y : SFmul prec emax x (SFopp y) = SFopp (SFmul prec emax x y).
Proof.
  destruct x as [sx | sx | | sx mx ex], y as [sy | sy | | sy my ey]; cbn [SFmul SFopp];
    rewrite ?round_aux_opp; try reflexivity; destruct sx, sy; reflexivity.
Qed.

Lemma SFmul_opp_l x y : SFmul prec emax (SFopp x) y = SFopp (SFmul prec emax x y).
Proof.
  destruct x as [sx | sx | | sx mx ex], y as [sy | sy | | sy my ey]; cbn [SFmul SFopp];
    rewrite ?round_aux_opp; try reflexivity; destruct sx, sy; reflexivity.
Qed.


Lemma binary_round_opp s m e :
  SFopp (binary_round prec emax s m e) = binary_round prec emax (negb s) m e.
Proof.
  unfold binary_round. destruct (shl_align _ _ _) as [mz ez]. apply round_aux_opp.
Qed.

Lemma binary_normalize_opp m e :
  sf_same (binary_normalize prec emax (- m) e false)
          (SFopp (binary_normalize prec emax m e false)).
Proof.
  destruct m as [| p | p]; cbn [Z.opp binary_normalize].
  - right. exists false, true. split; reflexivity.
  - left. rewrite binary_round_opp. reflexivity.
  - left. rewrite binary_round_opp. reflexivity.
Qed.

Lemma cond_Zopp_negb s m : cond_Zopp (negb s) m = - cond_Zopp s m.
Proof. destruct s; cbn; lia. Qed.

Lemma SFadd_opp x y :
  sf_same (SFadd prec emax (SFopp x) (SFopp y)) (SFopp (SFadd prec emax x y)).
Proof.
  destruct x as [sx | sx | | sx mx ex], y as [sy | sy | | sy my ey]; cbn [SFadd SFopp];
    try (left; reflexivity);
    try (destruct sx, sy; cbn; first [ left; reflexivity | right; eexists _, _; split; reflexivity ]).
  rewrite !cond_Zopp_negb, <- Z.opp_add_distr. apply binary_normalize_opp.
Qed.


(** [sf_same] is an equivalence that the operations respect. *)
Lemma sf_same_refl x : sf_same x x.
Proof. left. reflexivity. Qed.

Lemma sf_same_trans x y z : sf_same x y -> sf_same y z -> sf_same x z.
Proof.
  intros [-> | (s & s' & -> & ->)] [<- | (t & t' & E & ->)];
    first [ left; reflexivity | right; eauto | idtac ].
Qed.

Lemma sf_same_opp x y : sf_same x y -> sf_same (SFopp x) (SFopp y).
Proof.
  intros [-> | (s & s' & -> & ->)]; [left; reflexivity | right; cbn; eauto].
Qed.

Lemma SFadd_same x x' y y' :
  sf_same x x' -> sf_same y y' ->
  sf_same (SFadd prec emax x y) (SFadd prec emax x' y').
Proof.
  intros [-> | (s & s' & -> & ->)] [-> | (t & t' & -> & ->)].
  - left. reflexivity.
  - destruct x' as [sx | sx | | sx mx ex]; cbn [SFadd];
      try (destruct sx); destruct t, t'; zero_cases.
  - destruct y' as [sy | sy | | sy my ey]; cbn [SFadd];
      try (destruct sy); destruct s, s'; zero_cases.
  - destruct s, s', t, t'; cbn; zero_cases.
Qed.

Lemma SFsub_same x x' y y' :
  sf_same x x' -> sf_same y y' ->
  sf_same (SFsub prec emax x y) (SFsub prec emax x' y').
Proof.
  intros [-> | (s & s' & -> & ->)] [-> | (t & t' & -> & ->)].
  - left. reflexivity.
  - destruct x' as [sx | sx | | sx mx ex]; cbn [SFsub];
      try (destruct sx); destruct t, t'; zero_cases.
  - destruct y' as [sy | sy | | sy my ey]; cbn [SFsub];
      try (destruct sy); destruct s, s'; zero_cases.
  - destruct s, s', t, t'; cbn; zero_cases.
Qed.

Lemma SFmul_same x x' y y' :
  sf_same x x' -> sf_same y y' ->
  sf_same (SFmul prec emax x y) (SFmul prec emax x' y').
Proof.
  intros [-> | (s & s' & -> & ->)] [-> | (t & t' & -> & ->)].
  - left. reflexivity.
  - destruct x' as [sx | sx | | sx mx ex]; cbn [SFmul]; zero_cases.
  - destruct y' as [sy | sy | | sy my ey]; cbn [SFmul]; zero_cases.
  - cbn. zero_cases.
Qed.

Lemma SFdiv_same_l x x' y :
  sf_same x x' -> sf_same (SFdiv prec emax x y) (SFdiv prec emax x' y).
Proof.
  intros [-> | (s & s' & -> & ->)].
  - left. reflexivity.
  - destruct y as [sy | sy | | sy my ey]; cbn [SFdiv]; zero_cases.
Qed.

Lemma SFmul_square_opp x x' :
  sf_same x' (SFopp x) -> SFmul prec emax x' x' = SFmul prec emax x x.
Proof.
  intros [-> | (s & s' & -> & E)].
  - rewrite SFmul_opp_l, SFmul_opp_r. apply SFopp_involutive.
  - destruct x as [sx | | |]; try discriminate. cbn. destruct s, sx; reflexivity.
Qed.

Lemma SFeqb_same x x' y : sf_same x x' -> SFeqb x y = SFeqb x' y.
Proof.
  intros [-> | (s & s' & -> & ->)]; [reflexivity |].
  destruct y; reflexivity.
Qed.

Lemma SFltb_same_r x y y' : sf_same y y' -> SFltb x y = SFltb x y'.
Proof.
  intros [-> | (s & s' & -> & ->)]; [reflexivity |].
  destruct x; reflexivity.
Qed.

Lemma SFltb_zero_same z x x' :
  sf_same x x' -> SFltb (S754_zero z) x = true -> x = x'.
Proof.
  intros [-> | (s & s' & -> & ->)]; [reflexivity |]. discriminate.
Qed.

End SpecNegation.

Section SpecSigns.

Import SpecFloat.
Variables prec emax : Z.

Lemma shr_1_nonneg mrs : 0 <= shr_m mrs -> 0 <= shr_m (shr_1 mrs).
Proof.
  destruct mrs as [m r s]. cbn [shr_m]. intros Hm. unfold shr_1.
  destruct m as [| [p | p |] | p]; cbn [shr_m]; lia.
Qed.

Lemma iter_shr_1_nonneg (p : positive) :
  forall mrs, 0 <= shr_m mrs -> 0 <= shr_m (iter_pos shr_1 p mrs).
Proof.
  induction p as [p IH | p IH |]; intros mrs Hm; cbn [iter_pos].
  - apply IH, IH, shr_1_nonneg, Hm.
  - apply IH, IH, Hm.
  - apply shr_1_nonneg, Hm.
Qed.

Lemma shr_fexp_nonneg m e l :
  0 <= m -> 0 <= shr_m (shr_fexp prec emax m e l).1.
Proof.
  intros Hm. unfold shr_fexp, shr.
  assert (H0 : 0 <= shr_m (shr_record_of_loc m l))
    by (destruct l as [| []]; exact Hm).
  destruct (fexp prec emax (Zdigits2 m + e) - e) as [| p | p]; cbn [fst];
    [exact H0 | apply iter_shr_1_nonneg; exact H0 | exact H0].
Qed.

Lemma round_nearest_even_nonneg m l : 0 <= m -> 0 <= round_nearest_even m l.
Proof.
  intros Hm. unfold round_nearest_even.
  destruct l as [| []]; [exact Hm | | exact Hm | lia].
  destruct (Z.even m); lia.
Qed.

(** Rounding a mantissa that is not negative gives a zero, a finite number
    or an infinity of the sign asked for, never NaN. *)
Lemma round_aux_cases s m e l :
  0 <= m ->
  binary_round_aux prec emax s m e l = S754_zero s \/
  (exists m' e', binary_round_aux prec emax s m e l = S754_finite s m' e') \/
  binary_round_aux prec emax s m e l = S754_infinity s.
Proof.
  intros Hm. unfold binary_round_aux.
  pose proof (shr_fexp_nonneg m e l Hm) as H1.
  destruct (shr_fexp prec emax m e l) as [mrs' e']. cbn [fst] in H1.
  pose proof (shr_fexp_nonneg _ e' loc_Exact
                (round_nearest_even_nonneg _ (loc_of_shr_record mrs') H1)) as H2.
  destruct (shr_fexp prec emax _ e' loc_Exact) as [mrs'' e'']. cbn [fst] in H2.
  destruct (shr_m mrs'') as [| p | p]; [left; reflexivity | | lia].
  destruct (e'' <=? emax - prec); [right; left; eauto | right; right; reflexivity].
Qed.

Lemma round_aux_nonneg m e l :
  0 <= m -> sf_nonneg (binary_round_aux prec emax false m e l).
Proof.
  intros Hm.
  destruct (round_aux_cases false m e l Hm) as [-> | [(m' & e' & ->) | ->]]; reflexivity.
Qed.

Lemma SFmul_square_nonneg x : sf_nonneg x -> sf_nonneg (SFmul prec emax x x).
Proof.
  destruct x as [s | [] | | [] m e]; try discriminate; intros _; cbn [SFmul].
  - destruct s; reflexivity.
  - reflexivity.
  - apply round_aux_nonneg. lia.
Qed.

Lemma SFltb_zero_nonneg x : SFltb (S754_zero false) x = true -> sf_nonneg x.
Proof. destruct x as [s | [] | | [] m e]; try discriminate; reflexivity. Qed.





End SpecSigns.

(** *** The same facts on [float] *)

Section Binary64Laws.

Import SpecFloat FloatOps FloatAxioms.
Local Open Scope float_scope.

Lemma of_Z_zero : Binary64.of_Z 0 = 0.
Proof. reflexivity. Qed.

Lemma of_Z_minus_two : Binary64.of_Z (-2) = -2.
Proof. reflexivity. Qed.

Lemma Prim2SF_zero : Prim2SF 0 = S754_zero false.
Proof. reflexivity. Qed.


Lemma b64_opp_involutive (a : float) : - - a = a.
Proof. apply Prim2SF_inj. rewrite !opp_spec. apply SFopp_involutive. Qed.

Lemma b64_mul_opp_r (a b : float) : a * - b = - (a * b).
Proof.
  apply Prim2SF_inj. rewrite opp_spec, !mul_spec, opp_spec. apply SFmul_opp_r.
Qed.

Lemma b64_mul_opp_l (a b : float) : - a * b = - (a * b).
Proof.
  apply Prim2SF_inj. rewrite opp_spec, !mul_spec, opp_spec. apply SFmul_opp_l.
Qed.

Lemma b64_mul_opp_opp (a b : float) : - a * - b = a * b.
Proof. rewrite b64_mul_opp_l, b64_mul_opp_r. apply b64_opp_involutive. Qed.


Lemma same_double_refl (a : float) : same_double a a.
Proof. apply sf_same_refl. Qed.

Lemma same_double_trans (a b c : float) :
  same_double a b -> same_double b c -> same_double a c.
Proof. apply sf_same_trans. Qed.

Lemma same_double_add (a a' b b' : float) :
  same_double a a' -> same_double b b' -> same_double (a + b) (a' + b').
Proof. unfold same_double. rewrite !add_spec. apply SFadd_same. Qed.

Lemma same_double_sub (a a' b b' : float) :
  same_double a a' -> same_double b b' -> same_double (a - b) (a' - b').
Proof. unfold same_double. rewrite !sub_spec. apply SFsub_same. Qed.

Lemma same_double_mul (a a' b b' : float) :
  same_double a a' -> same_double b b' -> same_double (a * b) (a' * b').
Proof. unfold same_double. rewrite !mul_spec. apply SFmul_same. Qed.

Lemma same_double_div (a a' b : float) :
  same_double a a' -> same_double (a / b) (a' / b).
Proof. unfold same_double. rewrite !div_spec. apply SFdiv_same_l. Qed.

(** The sum of two negations is the negation of the sum, up to the sign of
    a zero: [-0 + 0] is [0], not [-0]. *)
Lemma same_double_add_opp (a b : float) : same_double (- a + - b) (- (a + b)).
Proof. unfold same_double. rewrite opp_spec, !add_spec, !opp_spec. apply SFadd_opp. Qed.


Lemma same_double_square (a a' : float) : same_double a' (- a) -> a' * a' = a * a.
Proof.
  unfold same_double. rewrite opp_spec. intros Hs.
  apply Prim2SF_inj. rewrite !mul_spec. apply SFmul_square_opp. exact Hs.
Qed.

Lemma same_double_eqb (a a' b : float) : same_double a a' -> (a =? b) = (a' =? b).
Proof. unfold same_double. rewrite !eqb_spec. apply SFeqb_same. Qed.

Lemma same_double_ltb (a b b' : float) : same_double b b' -> (a <? b) = (a <? b').
Proof. unfold same_double. rewrite !ltb_spec. apply SFltb_same_r. Qed.

(** Of two doubles that are the same up to the sign of a zero, one that is
    positive, or that is not a zero, is the other. *)
Lemma same_double_positive (a a' : float) :
  same_double a a' -> (0 <? a) = true -> a = a'.
Proof.
  unfold same_double. rewrite ltb_spec, Prim2SF_zero. intros Hs Hpos.
  apply Prim2SF_inj. exact (SFltb_zero_same false _ _ Hs Hpos).
Qed.








(** Two rounded squarings of a positive double give a double [>= 0]. *)
Lemma pow4_nonneg (r : float) : (0 <? r) = true -> (0 <=? Binary64.pow4 r) = true.
Proof.
  unfold Binary64.pow4. rewrite ltb_spec, leb_spec, !mul_spec, Prim2SF_zero. intros Hr.
  apply SFmul_square_nonneg, SFmul_square_nonneg, SFltb_zero_nonneg. exact Hr.
Qed.

End Binary64Laws.

(** ** Negated samples *)

Section NegatedSamples.

Local Open Scope float_scope.

Lemma same_double_zero_opp : same_double (Binary64.of_Z 0) (- Binary64.of_Z 0).
Proof. right. exists false, true. split; reflexivity. Qed.

(** Summing negated samples gives the negated sum, up to the sign of a
    zero. *)
Lemma foldl_add_opp (xs : list float) :
  forall s s' : float, same_double s' (- s) ->
    same_double (foldl PrimFloat.add s' (PrimFloat.opp <$> xs))
                (- foldl PrimFloat.add s xs).
Proof.
  induction xs as [| x xs IH]; intros s s' Hs; [exact Hs |].
  cbn [fmap list_fmap foldl]. apply IH.
  apply (same_double_trans _ (- s + - x)).
  - apply same_double_add; [exact Hs | apply same_double_refl].
  - apply same_double_add_opp.
Qed.

Lemma dsum_opp (xs : list float) :
  same_double (dsum (PrimFloat.opp <$> xs)) (- dsum xs).
Proof. apply foldl_add_opp. exact same_double_zero_opp. Qed.


Lemma zip_with_mul_opp_opp (xs ys : list float) :
  zip_with PrimFloat.mul (PrimFloat.opp <$> xs) (PrimFloat.opp <$> ys) =
  zip_with PrimFloat.mul xs ys.
Proof.
  revert ys. induction xs as [| x xs IH]; intros [| y ys]; try reflexivity.
  cbn [fmap list_fmap zip_with]. rewrite b64_mul_opp_opp. f_equal. apply IH.
Qed.


Lemma dot_opp_opp (xs ys : list float) :
  dot (PrimFloat.opp <$> xs) (PrimFloat.opp <$> ys) = dot xs ys.
Proof. unfold dot. cbn [dmul binary64]. rewrite zip_with_mul_opp_opp. reflexivity. Qed.

(** [Σx² - (Σx)²/n] does not see the sign of the samples. *)
Lemma pearson_var_opp (xs : list float) (n : Z) :
  pearson_var (PrimFloat.opp <$> xs) n = pearson_var xs n.
Proof.
  unfold pearson_var. rewrite dot_opp_opp. cbn [dsub ddiv dmul binary64].
  rewrite (same_double_square (dsum xs) (dsum (PrimFloat.opp <$> xs)) (dsum_opp xs)).
  reflexivity.
Qed.


(** Negating both windows leaves [cov], up to the sign of a zero. *)
Lemma pearson_cov_opp_opp (xs ys : list float) (n : Z) :
  same_double (pearson_cov (PrimFloat.opp <$> xs) (PrimFloat.opp <$> ys) n)
              (pearson_cov xs ys n).
Proof.
  unfold pearson_cov. rewrite dot_opp_opp. cbn [dsub ddiv dmul binary64].
  apply same_double_sub; [apply same_double_refl |].
  apply same_double_div.
  rewrite <- (b64_mul_opp_opp (dsum xs) (dsum ys)).
  apply same_double_mul; apply dsum_opp.
Qed.

(** What [corrcoef] makes of the sums of two negated windows is what it
    makes of the sums of the windows, up to the sign of a zero. *)
Lemma corrcoef_finish_opp (xs ys : list float) (n : Z) :
  same_double
    (corrcoef_finish (accumulate sums_zero (PrimFloat.opp <$> xs) (PrimFloat.opp <$> ys)) n)
    (corrcoef_finish (accumulate sums_zero xs ys) n).
Proof.
  rewrite !corrcoef_finish_accumulate. unfold pearson, pearson_p_std.
  rewrite !pearson_var_opp.
  destruct (deqb _ _); [apply same_double_refl |].
  cbn [ddiv binary64]. apply same_double_div, pearson_cov_opp_opp.
Qed.

End NegatedSamples.

(** ** The claims about the value of the coefficient and of the cells *)

Section Binary64Values.

Local Open Scope float_scope.

(** C3, as amended.  On binary64 and for two windows in bounds, [corrcoef]
    returns [-2] when [p_std == 0] and the rounded quotient [cov / p_std]
    otherwise; so the value returned compares equal to [-2] exactly when
    [p_std == 0] or that quotient is itself [-2]. *)
Theorem corrcoef_binary64_sentinel (data : list float) (off_x off_y n : Z) :
  in_bounds data off_x n -> in_bounds data off_y n ->
  (Z.of_nat (length data) <= SIZE_MAX)%Z ->
  let xs := window data off_x n in
  let ys := window data off_y n in
  let p_std := pearson_p_std xs ys n in
  let q := pearson_cov xs ys n / p_std in
  exists r,
    corrcoef data off_x off_y n = Some r /\
    r = (if p_std =? 0 then -2 else q) /\
    (is_sentinel r = true <-> (p_std =? 0) = true \/ (q =? -2) = true).
Proof.
  intros Hx Hy Hlen xs ys p_std q.
  rewrite (corrcoef_in_bounds data off_x off_y n Hx Hy Hlen). cbv zeta.
  fold xs ys. unfold pearson. fold p_std. cbn [deqb ddiv d_of_Z binary64].
  rewrite of_Z_zero, of_Z_minus_two. fold q.
  eexists. split; [reflexivity | split; [reflexivity |]].
  unfold is_sentinel. cbn [deqb d_of_Z binary64]. rewrite of_Z_minus_two.
  destruct (p_std =? 0).
  - split; [intros _; left; reflexivity | intros _; reflexivity].
  - split; [intros Hq; right; exact Hq | intros [Hp | Hq]; [discriminate Hp | exact Hq]].
Qed.



End Binary64Values.

(** *** The cells are never negative *)

Section NonNegativeCells.

Local Open Scope float_scope.

Variable pow4 : float -> float.
Hypothesis pow4_nonneg : forall r : float, (0 <? r) = true -> (0 <=? pow4 r) = true.

Lemma rectify_nonneg (r : float) :
  (0 <=? rectify (ops := binary64_libm pow4) r) = true.
Proof using pow4_nonneg.
  unfold rectify. cbn [dltb dpow4 d_of_Z binary64_libm]. rewrite of_Z_zero.
  destruct (0 <? r) eqn:Hr; [apply pow4_nonneg; exact Hr | reflexivity].
Qed.

Lemma nonneg_cells_start (cgram : list float) : nonneg_cells (Matrix cgram []).
Proof. intros k Hk. cbn [stored] in Hk. inversion Hk. Qed.

Lemma store_nonneg (idx : Z) (v : float) (m m' : matrix float) :
  (0 <=? v) = true -> nonneg_cells m -> store idx v m = Some m' -> nonneg_cells m'.
Proof.
  intros Hv Hm Hst. unfold store in Hst.
  destruct (decide _) as [Hidx | _]; [| discriminate]. injection Hst as <-.
  intros k Hk. cbn [cells stored] in *.
  destruct (Z.eq_dec k idx) as [-> | Hne].
  - exists v. split; [apply load_insert_eq; exact Hidx | exact Hv].
  - rewrite load_insert_ne by lia.
    apply Hm. apply elem_of_app in Hk as [Hk | Hk]; [exact Hk |].
    apply list_elem_of_singleton in Hk. contradiction.
Qed.

Lemma fill_cell_nonneg (sig : list float) (wlen t off_y idx : Z)
    (m : matrix float) (f : flow (matrix float)) :
  nonneg_cells m ->
  fill_cell (ops := binary64_libm pow4) sig wlen t off_y idx m = Some f ->
  nonneg_cells (flow_state f).
Proof using pow4_nonneg.
  intros Hm Hfill. unfold fill_cell in Hfill.
  destruct (corrcoef sig t off_y wlen) as [r |]; [| discriminate].
  cbn [mbind option_bind] in Hfill.
  destruct (deqb r (d_of_Z (-2))).
  - injection Hfill as <-. exact Hm.
  - destruct (store idx (rectify r) m) as [m' |] eqn:Hst; [| discriminate].
    cbn [mbind option_bind] in Hfill. injection Hfill as <-. cbn [flow_state].
    exact (store_nonneg idx _ m m' (rectify_nonneg r) Hm Hst).
Qed.

Lemma finish_state (r : option (flow (matrix float))) (code : Z) (m' : matrix float) :
  finish r = Some (code, m') -> exists f, r = Some f /\ flow_state f = m'.
Proof.
  unfold finish. destruct r as [[m | c m] |]; cbn [mbind option_bind];
    intros Heq; try discriminate; injection Heq as <- <-; eexists; split; reflexivity.
Qed.

(** C6, as amended.  On binary64, with any [pow] that returns a double
    [>= 0] for a positive argument: whenever a builder returns, with [1] or
    with [0], every place of [cgram] it stored to holds a double [>= 0]
    (so no NaN and nothing negative). *)
Theorem binary64_cells_nonnegative (sig : list float) (delays : list Z) (wlen : Z)
    (dims : list Z) (cgram : list float) (code : Z) (m' : matrix float) :
  correlogram_delay (ops := binary64_libm pow4) sig delays wlen dims cgram =
    Some (code, m') \/
  correlogram (ops := binary64_libm pow4) sig wlen dims cgram = Some (code, m') ->
  forall k, k ∈ stored m' ->
    exists v, load (cells m') k = Some v /\ (0 <=? v) = true.
Proof using pow4_nonneg.
  intros Hrun.
  assert (H0 : is_size 0) by (unfold is_size, SIZE_MAX; lia).
  assert (H1 : is_size 1) by (unfold is_size, SIZE_MAX; lia).
  change (nonneg_cells m').
  destruct Hrun as [Hrun | Hrun];
    apply finish_state in Hrun as (f & Hrun & <-);
    (destruct (load dims 0) as [dims0 |]; [| discriminate]);
    cbn [mbind option_bind] in Hrun.
  - refine (for_loop_invariant nonneg_cells _ _ _ 0%Z _ f H0 (nonneg_cells_start cgram) Hrun).
    intros i m g _ Hm Hbody.
    destruct (load dims 1) as [dims1 |]; [| discriminate].
    cbn [mbind option_bind] in Hbody.
    refine (for_loop_invariant nonneg_cells _ _ _ 0%Z _ g H0 Hm Hbody).
    intros t m0 g0 _ Hm0 Hcell.
    destruct (load delays i) as [delay |]; [| discriminate].
    cbn [mbind option_bind] in Hcell.
    exact (fill_cell_nonneg sig wlen t _ _ m0 g0 Hm0 Hcell).
  - refine (for_loop_invariant nonneg_cells _ _ _ 1%Z _ f H1 (nonneg_cells_start cgram) Hrun).
    intros d m g _ Hm Hbody.
    destruct (load dims 1) as [dims1 |]; [| discriminate].
    cbn [mbind option_bind] in Hbody.
    refine (for_loop_invariant nonneg_cells _ _ _ 0%Z _ g H0 Hm Hbody).
    intros off m0 g0 _ Hm0 Hcell.
    exact (fill_cell_nonneg sig wlen off _ _ m0 g0 Hm0 Hcell).
Qed.

End NonNegativeCells.


(** ** Enumerating the cells of a small grid *)

Lemma grid_Forall (P : Z -> Z -> Prop) (lo hi T : Z) :
  Forall (fun c => P c.1 c.2) (grid lo hi T) ->
  forall i t, lo <= i < hi -> 0 <= t < T -> P i t.
Proof.
  intros Hall i t Hi Ht. rewrite Forall_forall in Hall.
  apply (Hall (i, t)). apply elem_of_grid. split; assumption.
Qed.

Lemma grid_Forall_before (P : Z -> Z -> Prop) (lo T i0 t0 : Z) :
  Forall (fun c => before c.1 c.2 i0 t0 -> P c.1 c.2) (grid lo (i0 + 1) T) ->
  forall i t, lo <= i -> 0 <= t < T -> before i t i0 t0 -> P i t.
Proof.
  intros Hall i t Hi Ht Hb. rewrite Forall_forall in Hall.
  apply (Hall (i, t)); [| exact Hb]. apply elem_of_grid.
  unfold before in Hb. split; lia.
Qed.

(** ** binary64: the claims at concrete inputs *)

Section Binary64Claims.

Import Examples.

(** C1 at the ramp of the spec's example: windows at 0 and 4, [n = 4]. *)
Lemma corrcoef_single_pass_witness :
  in_bounds ramp 0 4 /\ in_bounds ramp 4 4 /\
  corrcoef ramp 0 4 4 = Some 0x1.ffffffffffffep-1%float.
Proof.
  assert (H0 : in_bounds ramp 0 4) by solve_bounds.
  assert (H4 : in_bounds ramp 4 4) by solve_bounds.
  split; [exact H0 | split; [exact H4 |]].
  destruct (corrcoef_single_pass ramp 0 4 4 H0 H4 ltac:(lia) ltac:(solve_bounds))
    as [_ Hrun].
  rewrite Hrun. vm_compute. reflexivity.
Defined.

(** C1 as stated fails at a constant window: both windows are in bounds and
    [n = 4 > 0], [p_std] is [0], and [corrcoef] returns [-2], which is not
    [cov / p_std] (that quotient is [0/0], not a number). *)
Lemma corrcoef_flat_not_quotient :
  in_bounds flat_then_ramp 0 4 /\ in_bounds flat_then_ramp 4 4 /\ 0 < 4 /\
  corrcoef flat_then_ramp 0 4 4 = Some (-2)%float /\
  corrcoef flat_then_ramp 0 4 4 <>
    Some (ddiv (pearson_cov (window flat_then_ramp 0 4) (window flat_then_ramp 4 4) 4)
               (pearson_p_std (window flat_then_ramp 0 4) (window flat_then_ramp 4 4) 4)).
Proof.
  split; [solve_bounds | split; [solve_bounds | split; [lia | split]]].
  - vm_compute. reflexivity.
  - intros Heq.
    apply (f_equal (fun o => match o with Some v => PrimFloat.is_nan v | None => false end))
      in Heq.
    vm_compute in Heq. discriminate Heq.
Qed.


(** C3 as stated fails on binary64 at [large]: both windows are in bounds,
    [n = 2 > 0], and the sums Σx² = 36028794066174017,
    Σy² = 36028795139915805, Σxy = 36028794603044898 are rounded to
    multiples of 4 and 8; [Σx² - (Σx)²/n] and [Σy² - (Σy)²/n] both come out
    as [4] (4.5 exactly), [cov] as [-8] (-4.5 exactly).  So [p_std] is [4],
    not [0], and [corrcoef] returns [-8 / 4 = -2]. *)
Lemma corrcoef_binary64_minus_two_nondegenerate :
  in_bounds large 0 2 /\ in_bounds large 2 2 /\ 0 < 2 /\
  pearson_cov (window large 0 2) (window large 2 2) 2 = (-8)%float /\
  pearson_p_std (window large 0 2) (window large 2 2) 2 = 4%float /\
  deqb 4%float (d_of_Z 0) = false /\
  corrcoef large 0 2 2 = Some (-2)%float.
Proof.
  split; [solve_bounds | split; [solve_bounds | split; [lia |]]].
  repeat split; vm_compute; reflexivity.
Qed.

(** C6 as stated fails on binary64 at [echo]: the two windows are equal,
    [cov] and both radicands are [3], and [sqrt 3 * sqrt 3] rounds to
    2.9999999999999996, so [r = 3 / 2.9999999999999996] is
    1.0000000000000002 > 1; both builders return [1] with a cell above [1]
    (1.0000000000000009 when [pow (r, 4)] is two rounded squarings). *)
Lemma binary64_cell_above_one :
  pearson_p_std (window echo 0 4) (window echo 4 4) 4 = 0x1.7ffffffffffffp+1%float /\
  corrcoef echo 0 4 4 = Some 0x1.0000000000001p+0%float /\
  dltb 1%float 0x1.0000000000001p+0%float = true /\
  correlogram_delay echo [4] 4 [1; 1] (blank 1) =
    Some (1, Matrix [0x1.0000000000004p+0%float] [0]) /\
  correlogram echo 4 [5; 1] (blank 4) =
    Some (1, Matrix [0; 0; 0; 0x1.0000000000004p+0]%float [0; 1; 2; 3]) /\
  dltb 1%float 0x1.0000000000004p+0%float = true.
Proof.
  repeat split; vm_compute; reflexivity.
Qed.



(** C4 at [doubling_then_flat] with [dims = [5, 2]]: [correlogram_delay]
    with the delays 1 and 4 meets the constant stretch at row 1, position 0,
    after two stores; [correlogram], on a matrix of (5-1)*2 cells, meets it
    at delay 3, position 1, after five.  At [doubling] no cell yields the
    sentinel and both builders return [1]. *)
Lemma builders_abort_on_sentinel_witness :
  (exists m',
     correlogram_delay doubling_then_flat [1; 4] 3 [5; 2] (blank 10) = Some (0, m') /\
     partial_fill (coef_delay doubling_then_flat [1; 4] 3) (fun i t => i * 2 + t)
       0 2 1 0 (blank 10) m') /\
  (exists m',
     correlogram doubling_then_flat 3 [5; 2] (blank 8) = Some (0, m') /\
     partial_fill (coef_range doubling_then_flat 3) (fun d o => (d - 1) * 2 + o)
       1 2 3 1 (blank 8) m') /\
  (exists m', correlogram_delay doubling [4; 1] 3 [2; 2] (blank 4) = Some (1, m')) /\
  (exists m', correlogram doubling 3 [4; 2] (blank 6) = Some (1, m')).
Proof.
  destruct (builders_abort_on_sentinel doubling_then_flat [1; 4] 3 5 2 (blank 10)
              ltac:(solve_bounds) ltac:(solve_bounds) ltac:(solve_bounds))
    as [Hdelay _].
  destruct (Hdelay ltac:(solve_bounds)) as [Hstop _].
  destruct (builders_abort_on_sentinel doubling_then_flat [] 3 5 2 (blank 8)
              ltac:(solve_bounds) ltac:(solve_bounds) ltac:(solve_bounds))
    as [_ Hrange].
  destruct (Hrange ltac:(solve_bounds)) as [Hstop' _].
  destruct (builders_abort_on_sentinel doubling [4; 1] 3 2 2 (blank 4)
              ltac:(solve_bounds) ltac:(solve_bounds) ltac:(solve_bounds))
    as [Hdelay1 _].
  destruct (Hdelay1 ltac:(solve_bounds)) as [_ Hgo].
  destruct (builders_abort_on_sentinel doubling [] 3 4 2 (blank 6)
              ltac:(solve_bounds) ltac:(solve_bounds) ltac:(solve_bounds))
    as [_ Hrange1].
  destruct (Hrange1 ltac:(solve_bounds)) as [_ Hgo'].
  split; [| split; [| split]].
  - apply (Hstop 1 0); [lia | lia | solve_proper |].
    apply grid_Forall_before. solve_cells.
  - apply (Hstop' 3 1); [lia | lia | solve_proper |].
    apply grid_Forall_before. solve_cells.
  - apply Hgo. apply grid_Forall. solve_cells.
  - apply Hgo'. apply grid_Forall. solve_cells.
Defined.


(** C7 at [doubling] with [dims = [4, 2]]. *)
Lemma correlogram_refines_delay_list_witness :
  1 <= 4 /\ is_size 4 /\ is_size 2 /\
  correlogram doubling 3 [4; 2] (blank 6) =
  correlogram_delay doubling (seqZ 1 (4 - 1)) 3 [4 - 1; 2] (blank 6).
Proof.
  split; [lia | split; [solve_bounds | split; [solve_bounds |]]].
  exact (correlogram_refines_delay_list doubling 3 4 2 (blank 6)
           ltac:(lia) ltac:(solve_bounds) ltac:(solve_bounds)).
Defined.

(** C10 at the ramp: no rows, no positions, or no delay below [dims[0]]. *)
Lemma builders_vacuous_on_empty_dims_witness :
  correlogram_delay ramp [4] 4 [0; 3] (blank 2) = Some (1, Matrix (blank 2) []) /\
  correlogram_delay ramp [4] 4 [3; 0] (blank 2) = Some (1, Matrix (blank 2) []) /\
  correlogram ramp 4 [1; 3] (blank 2) = Some (1, Matrix (blank 2) []) /\
  correlogram ramp 4 [3; 0] (blank 2) = Some (1, Matrix (blank 2) []).
Proof.
  split; [| split; [| split]].
  - apply (proj1 (builders_vacuous_on_empty_dims ramp [4] 4 0 3 (blank 2))).
    left. reflexivity.
  - apply (proj1 (builders_vacuous_on_empty_dims ramp [4] 4 3 0 (blank 2))).
    right. reflexivity.
  - apply (proj2 (builders_vacuous_on_empty_dims ramp [4] 4 1 3 (blank 2))).
    left. lia.
  - apply (proj2 (builders_vacuous_on_empty_dims ramp [4] 4 3 0 (blank 2))).
    right. reflexivity.
Defined.

(** C3 at [large]: [p_std] is [4], the quotient is [-2], and the value
    returned compares equal to [-2]. *)
Lemma corrcoef_binary64_sentinel_witness :
  in_bounds large 0 2 /\ in_bounds large 2 2 /\
  exists r, corrcoef large 0 2 2 = Some r /\ is_sentinel r = true.
Proof.
  assert (H0 : in_bounds large 0 2) by solve_bounds.
  assert (H2 : in_bounds large 2 2) by solve_bounds.
  split; [exact H0 | split; [exact H2 |]].
  pose proof (corrcoef_binary64_sentinel large 0 2 2 H0 H2 ltac:(solve_bounds)) as Hrun.
  cbv zeta in Hrun. destruct Hrun as (r & Hr & _ & Hiff).
  exists r. split; [exact Hr |]. apply Hiff. right. vm_compute. reflexivity.
Defined.

(** C6 at [echo] with two rounded squarings for [pow]: the cell above [1]
    is [>= 0]. *)
Lemma binary64_cells_nonnegative_witness :
  exists m',
    correlogram_delay echo [4] 4 [1; 1] (blank 1) = Some (1, m') /\
    forall k, k ∈ stored m' ->
      exists v, load (cells m') k = Some v /\ (0 <=? v)%float = true.
Proof.
  run_builder.
  assert (Hrun : correlogram_delay echo [4] 4 [1; 1] (blank 1) =
                 Some (1, Matrix [0x1.0000000000004p+0%float] [0]))
    by (vm_compute; reflexivity).
  split; [exact Hrun |].
  exact (binary64_cells_nonnegative Binary64.pow4 pow4_nonneg echo [4] 4 [1; 1]
           (blank 1) 1 _ (or_introl Hrun)).
Defined.



End Binary64Claims.

(** * Further properties of the three functions *)

(** ** [corrcoef] reads out of bounds exactly when a window is out of bounds *)

Section Bounds.

Context {D : Type} {ops : DoubleOps D}.

(** A loop that ran to its end stayed inside the buffer with both
    counters. *)
Lemma corrcoef_loop_Some_bounds (data : list D) (count : nat) :
  forall (i j : Z) (s s' : sums D),
    0 <= i -> 0 <= j -> Z.of_nat (length data) <= SIZE_MAX ->
    corrcoef_loop data count i j s = Some s' ->
    count = 0%nat \/
    (i + Z.of_nat count <= Z.of_nat (length data) /\
     j + Z.of_nat count <= Z.of_nat (length data)).
Proof.
  induction count as [| count IH]; intros i j s s' Hi Hj Hlen Hrun.
  - left. reflexivity.
  - right. cbn [corrcoef_loop] in Hrun. unfold corrcoef_body in Hrun.
    destruct (load data i) as [x |] eqn:Hx; [| discriminate].
    destruct (load data j) as [y |] eqn:Hy; [| discriminate].
    cbn [mbind option_bind] in Hrun.
    rewrite load_lookup in Hx, Hy by assumption.
    apply lookup_lt_Some in Hx, Hy.
    rewrite !size_wrap_small in Hrun by (unfold is_size; lia).
    apply IH in Hrun as [-> | [Hib Hjb]]; lia.
Qed.

(** X1.  For [n > 0] and offsets that are sizes with [off_x + n] not beyond
    [SIZE_MAX]: [corrcoef] returns a value if and only if both windows lie
    inside the buffer; otherwise it reads past the end of [data]. *)
Theorem corrcoef_defined_iff_in_bounds (data : list D) (off_x off_y n : Z) :
  0 <= off_x -> 0 <= off_y -> 0 < n -> off_x + n <= SIZE_MAX ->
  Z.of_nat (length data) <= SIZE_MAX ->
  is_Some (corrcoef data off_x off_y n) <->
  in_bounds data off_x n /\ in_bounds data off_y n.
Proof.
  intros Hx Hy Hn Hmax Hlen. split.
  - intros [r Hr]. unfold corrcoef in Hr. cbv zeta in Hr.
    rewrite corrcoef_count in Hr by lia.
    destruct (corrcoef_loop data (Z.to_nat n) off_x off_y sums_zero) as [s |] eqn:Hloop;
      [| discriminate].
    apply corrcoef_loop_Some_bounds in Hloop as [Hzero | [Hxb Hyb]]; try assumption.
    + lia.
    + unfold in_bounds. rewrite Z2Nat.id in Hxb, Hyb by lia. lia.
  - intros [Hxb Hyb]. rewrite (corrcoef_in_bounds data off_x off_y n Hxb Hyb Hlen).
    eexists. reflexivity.
Qed.

End Bounds.

(** ** The codes a builder returns *)


Section ReturnCodes.

Context {D : Type} {ops : DoubleOps D}.

Lemma finish_inv (r : option (flow (matrix D))) (code : Z) (m' : matrix D) :
  finish r = Some (code, m') ->
  (r = Some (Continue m') /\ code = 1) \/ r = Some (Return code m').
Proof.
  unfold finish. destruct r as [[m | c m] |]; cbn [mbind option_bind];
    intros Heq; try discriminate; injection Heq as <- <-; auto.
Qed.



End ReturnCodes.


(** ** Reading a builder's return code *)

Lemma NoDup_split_unique {A : Type} (l p1 q1 p2 q2 : list A) (c : A) :
  NoDup l -> l = p1 ++ c :: q1 -> l = p2 ++ c :: q2 -> p1 = p2.
Proof.
  revert p1 p2. induction l as [| x l IH]; intros p1 p2 Hnd H1 H2.
  - destruct p1; discriminate H1.
  - apply NoDup_cons in Hnd as [Hx Hnd].
    destruct p1 as [| a p1], p2 as [| b p2]; cbn in H1, H2.
    + reflexivity.
    + injection H1 as -> _. injection H2 as _ ->.
      exfalso. apply Hx. apply elem_of_app. right. left.
    + injection H2 as -> _. injection H1 as _ ->.
      exfalso. apply Hx. apply elem_of_app. right. left.
    + injection H1 as -> H1. injection H2 as -> H2.
      f_equal. exact (IH p1 p2 Hnd H1 H2).
Qed.

(** The places of a grid in row-major order are consecutive. *)
Lemma row_major_grid (T : Z) (rows : nat) :
  0 <= T ->
  forall lo : Z,
    (fun c : Z * Z => c.1 * T + c.2) <$> grid lo (lo + Z.of_nat rows) T =
    seqZ (lo * T) (Z.of_nat rows * T).
Proof.
  intros HT. induction rows as [| rows IH]; intros lo.
  - unfold grid. replace (lo + Z.of_nat 0 - lo) with 0 by lia. reflexivity.
  - unfold grid in *.
    replace (lo + Z.of_nat (S rows) - lo) with (Z.of_nat (S rows)) by lia.
    rewrite (seqZ_cons lo (Z.of_nat (S rows))) by lia. rewrite bind_cons, fmap_app.
    replace (Z.pred (Z.of_nat (S rows))) with (lo + 1 + Z.of_nat rows - (lo + 1)) by lia.
    replace (Z.succ lo) with (lo + 1) by lia.
    rewrite IH. rewrite <- list_fmap_compose.
    replace (Z.of_nat (S rows) * T) with (T + Z.of_nat rows * T) by lia.
    rewrite seqZ_app by nia. f_equal.
    + transitivity (Z.add (lo * T) <$> seqZ 0 T); [reflexivity |].
      rewrite fmap_add_seqZ. f_equal. lia.
    + f_equal. lia.
Qed.

Section RunInversion.

Context {D : Type} {ops : DoubleOps D} {C : Type}.
Variables (coef : C -> option D) (index : C -> Z).

(** A pass that returned either went through cells that are all proper, or
    stopped with [0] at the first cell whose coefficient is the sentinel. *)
Lemma run_cells_inv (cs : list C) :
  forall (m : matrix D) (f : flow (matrix D)),
    run_cells (cell_step coef index) cs m = Some f ->
    (exists m', f = Continue m' /\ Forall (fun c => proper (coef c)) cs) \/
    (exists pre c0 post m',
        cs = pre ++ c0 :: post /\ f = Return 0 m' /\
        Forall (fun c => proper (coef c)) pre /\ degenerate (coef c0)).
Proof.
  induction cs as [| c cs IH]; intros m f Hrun.
  - left. exists m. cbn in Hrun. injection Hrun as <-. split; [reflexivity | constructor].
  - cbn [run_cells] in Hrun. unfold cell_step in Hrun at 1.
    destruct (coef c) as [r |] eqn:Hr; [| discriminate].
    cbn [mbind option_bind] in Hrun.
    destruct (is_sentinel r) eqn:Hs.
    + right. injection Hrun as <-. exists [], c, cs, m.
      split; [reflexivity | split; [reflexivity | split; [constructor |]]].
      exists r. split; [exact Hr | exact Hs].
    + assert (Hc : proper (coef c)) by (exists r; split; [exact Hr | exact Hs]).
      destruct (store (index c) (rectify r) m) as [m1 |]; [| discriminate].
      cbn [mbind option_bind] in Hrun.
      apply IH in Hrun as [(m' & -> & Hall) | (pre & c0 & post & m' & -> & -> & Hpre & Hc0)].
      * left. exists m'. split; [reflexivity | constructor; assumption].
      * right. exists (c :: pre), c0, post, m'.
        split; [reflexivity | split; [reflexivity | split; [constructor; assumption |]]].
        exact Hc0.
Qed.

End RunInversion.

Section GridOutcome.

Context {D : Type} {ops : DoubleOps D}.
Variables (coef : Z -> Z -> option D) (place : Z -> Z -> Z).
Variables (index : Z * Z -> Z) (lo Dn T : Z) (cgram : list D).

Hypothesis index_place :
  forall i t, lo <= i < Dn -> 0 <= t < T ->
    index (i, t) = place i t /\ 0 <= place i t < Z.of_nat (length cgram).
Hypothesis index_NoDup : NoDup (index <$> grid lo Dn T).

(** A builder's pass that returned either filled the whole grid with proper
    coefficients, or stopped at the first sentinel. *)
Lemma grid_pass_outcome (f : flow (matrix D)) :
  run_cells (cell_step (fun c => coef c.1 c.2) index) (grid lo Dn T)
    (Matrix cgram []) = Some f ->
  (exists m', f = Continue m' /\
     (forall i t, lo <= i < Dn -> 0 <= t < T -> proper (coef i t)) /\
     filled (fun c => coef c.1 c.2) index (grid lo Dn T) (Matrix cgram []) m') \/
  (exists m' i0 t0, f = Return 0 m' /\
     lo <= i0 < Dn /\ 0 <= t0 < T /\ degenerate (coef i0 t0) /\
     (forall i t, lo <= i -> 0 <= t < T -> before i t i0 t0 -> proper (coef i t)) /\
     partial_fill coef place lo T i0 t0 cgram m').
Proof using index_place index_NoDup.
  intros Hrun. pose proof Hrun as Hinv.
  apply run_cells_inv in Hinv
    as [(m' & -> & Hall) | (pre & [i0 t0] & post & m' & Hgrid & -> & Hpre & Hc0)].
  - left. exists m'.
    assert (Hall' : forall i t, lo <= i < Dn -> 0 <= t < T -> proper (coef i t)).
    { intros i t Hi Ht. rewrite Forall_forall in Hall.
      apply (Hall (i, t)). apply elem_of_grid. split; assumption. }
    split; [reflexivity | split; [exact Hall' |]].
    destruct (grid_pass_success coef place index lo Dn T cgram index_place index_NoDup Hall')
      as (m'' & Hrun' & Hfilled).
    rewrite Hrun in Hrun'. injection Hrun' as <-. exact Hfilled.
  - right. exists m', i0, t0. cbn [fst snd] in Hc0.
    assert (Hin : lo <= i0 < Dn /\ 0 <= t0 < T).
    { apply elem_of_grid. rewrite Hgrid. apply elem_of_app. right. left. }
    destruct Hin as [Hi0 Ht0].
    destruct (grid_split lo Dn T i0 t0 Hi0 Ht0) as (pre' & post' & Hgrid' & Hmem).
    assert (Heq : pre = pre') by
      exact (NoDup_split_unique _ _ _ _ _ _ (NoDup_grid lo Dn T) Hgrid Hgrid').
    subst pre'.
    assert (Hbefore : forall i t, lo <= i -> 0 <= t < T -> before i t i0 t0 ->
              proper (coef i t)).
    { intros i t Hi Ht Hb. rewrite Forall_forall in Hpre.
      apply (Hpre (i, t)). apply Hmem. auto. }
    split; [reflexivity | split; [exact Hi0 | split; [exact Ht0 | split; [exact Hc0 |]]]].
    split; [exact Hbefore |].
    destruct (grid_pass_failure coef place index lo Dn T cgram index_place index_NoDup
                i0 t0 Hi0 Ht0 Hc0 Hbefore) as (m'' & Hrun' & Hpart).
    rewrite Hrun in Hrun'. injection Hrun' as <-. exact Hpart.
Qed.

End GridOutcome.

Lemma row_major_delay (Dn T : Z) :
  0 <= Dn -> 0 <= T ->
  (fun c : Z * Z => c.1 * T + c.2) <$> grid 0 Dn T = seqZ 0 (Dn * T).
Proof.
  intros HD HT. pose proof (row_major_grid T (Z.to_nat Dn) HT 0) as Hrows.
  rewrite Z2Nat.id in Hrows by exact HD. exact Hrows.
Qed.

Lemma row_major_range (Dn T : Z) :
  0 <= T ->
  (fun c : Z * Z => (c.1 - 1) * T + c.2) <$> grid 1 Dn T = seqZ 0 ((Dn - 1) * T).
Proof.
  intros HT. destruct (Z.le_gt_cases 1 Dn) as [HD | HD].
  - replace Dn with (1 + (Dn - 1)) at 1 by lia. change 1 with (1 + 0) at 2.
    rewrite grid_shift, <- list_fmap_compose.
    rewrite <- (row_major_delay (Dn - 1) T) by lia.
    apply list_fmap_ext. intros n [d o] _. cbn [compose fst snd]. f_equal. f_equal. lia.
  - unfold grid. rewrite (seqZ_nil 1) by lia.
    rewrite (seqZ_nil 0 ((Dn - 1) * T)) by nia. reflexivity.
Qed.

Section Outcome.

Context {D : Type} {ops : DoubleOps D}.

(** X3.  [correlogram_delay] on a matrix that holds [dims[0]*dims[1]] cells:
    whenever it returns, either the code is [1], it has stored to the places
    [0, 1, ..., dims[0]*dims[1]-1] in that order, and every cell [(i, t)]
    holds [r > 0 ? pow(r, 4) : 0] for a coefficient [r] that is not the
    sentinel; or the code is [0], some cell [(i0, t0)] has the sentinel for
    coefficient, no cell before it has, and exactly the cells before it were
    stored. *)
Theorem correlogram_delay_outcome (sig : list D) (delays : list Z) (wlen Dn T : Z)
    (cgram : list D) (code : Z) (m' : matrix D) :
  is_size Dn -> is_size T ->
  Dn * T <= Z.of_nat (length cgram) -> Z.of_nat (length cgram) <= SIZE_MAX ->
  correlogram_delay sig delays wlen [Dn; T] cgram = Some (code, m') ->
  (code = 1 /\
   stored m' = seqZ 0 (Dn * T) /\
   forall i t, 0 <= i < Dn -> 0 <= t < T ->
     exists delay r,
       load delays i = Some delay /\
       corrcoef sig t (size_wrap (t + delay)) wlen = Some r /\
       is_sentinel r = false /\
       load (cells m') (i * T + t) = Some (rectify r)) \/
  (code = 0 /\
   exists i0 t0,
     0 <= i0 < Dn /\ 0 <= t0 < T /\
     degenerate (coef_delay sig delays wlen i0 t0) /\
     (forall i t, 0 <= i -> 0 <= t < T -> before i t i0 t0 ->
        proper (coef_delay sig delays wlen i t)) /\
     partial_fill (coef_delay sig delays wlen) (fun i t => i * T + t)
       0 T i0 t0 cgram m').
Proof.
  intros HD HT Hfit Hlen Hrun.
  pose proof (index_delay_place Dn T cgram Hfit Hlen) as Hplace.
  pose proof (NoDup_index_delay Dn T _ Hfit Hlen) as Hnd.
  rewrite correlogram_delay_cells in Hrun by assumption.
  apply finish_inv in Hrun.
  assert (Hf : exists f,
             run_cells (cell_step (fun c => coef_delay sig delays wlen c.1 c.2)
                          (index_delay T)) (grid 0 Dn T) (Matrix cgram []) = Some f /\
             (f = Continue m' /\ code = 1 \/ f = Return code m')).
  { destruct Hrun as [[Hrun ->] | Hrun]; eexists; (split; [exact Hrun |]); auto. }
  destruct Hf as (f & Hf & Hcode).
  destruct (grid_pass_outcome (coef_delay sig delays wlen) (fun i t => i * T + t)
              (index_delay T) 0 Dn T cgram Hplace Hnd f Hf)
    as [(m1 & -> & Hall & _ & Hst & Hval & _)
       | (m1 & i0 & t0 & -> & Hi0 & Ht0 & Hdeg & Hbefore & Hpart)].
  - left. destruct Hcode as [[Heq ->] | Heq]; [| discriminate Heq].
    injection Heq as ->. split; [reflexivity | split].
    + cbn [stored] in Hst. rewrite app_nil_l in Hst. rewrite Hst.
      rewrite <- (row_major_delay Dn T) by (unfold is_size in *; lia).
      apply list_fmap_ext. intros n [i t] Hc.
      apply list_elem_of_lookup_2, elem_of_grid in Hc as [Hi Ht].
      destruct (Hplace i t Hi Ht) as [E _]. exact E.
    + intros i t Hi Ht. destruct (Hall i t Hi Ht) as (r & Hr & Hs).
      pose proof (Hval (i, t) r ltac:(apply elem_of_grid; lia) Hr) as Hload.
      destruct (Hplace i t Hi Ht) as [E _]. rewrite E in Hload.
      unfold coef_delay in Hr. destruct (load delays i) as [delay |]; [| discriminate].
      exists delay, r. auto.
  - right. destruct Hcode as [[Heq _] | Heq]; [discriminate Heq |].
    injection Heq as <- <-. split; [reflexivity |]. exists i0, t0. auto.
Qed.

(** X4.  [correlogram] on a matrix that holds [(dims[0]-1)*dims[1]] cells:
    whenever it returns, either the code is [1], it has stored to the places
    [0, 1, ..., (dims[0]-1)*dims[1]-1] in that order, and every cell
    [(delay, off)] holds [r > 0 ? pow(r, 4) : 0] for a coefficient [r] that
    is not the sentinel; or the code is [0], some cell has the sentinel for
    coefficient, no cell before it has, and exactly the cells before it were
    stored. *)
Theorem correlogram_outcome (sig : list D) (wlen Dn T : Z)
    (cgram : list D) (code : Z) (m' : matrix D) :
  is_size Dn -> is_size T ->
  (Dn - 1) * T <= Z.of_nat (length cgram) -> Z.of_nat (length cgram) <= SIZE_MAX ->
  correlogram sig wlen [Dn; T] cgram = Some (code, m') ->
  (code = 1 /\
   stored m' = seqZ 0 ((Dn - 1) * T) /\
   forall d o, 1 <= d < Dn -> 0 <= o < T ->
     exists r,
       corrcoef sig o (size_wrap (o + d)) wlen = Some r /\
       is_sentinel r = false /\
       load (cells m') ((d - 1) * T + o) = Some (rectify r)) \/
  (code = 0 /\
   exists d0 o0,
     1 <= d0 < Dn /\ 0 <= o0 < T /\
     degenerate (coef_range sig wlen d0 o0) /\
     (forall d o, 1 <= d -> 0 <= o < T -> before d o d0 o0 ->
        proper (coef_range sig wlen d o)) /\
     partial_fill (coef_range sig wlen) (fun d o => (d - 1) * T + o)
       1 T d0 o0 cgram m').
Proof.
  intros HD HT Hfit Hlen Hrun.
  assert (HDmax : Dn <= SIZE_MAX) by (unfold is_size in *; lia).
  pose proof (index_range_place Dn T cgram HDmax Hfit Hlen) as Hplace.
  pose proof (NoDup_index_range Dn T _ Hfit Hlen HDmax) as Hnd.
  rewrite correlogram_cells in Hrun by assumption.
  apply finish_inv in Hrun.
  assert (Hf : exists f,
             run_cells (cell_step (fun c => coef_range sig wlen c.1 c.2)
                          (index_range T)) (grid 1 Dn T) (Matrix cgram []) = Some f /\
             (f = Continue m' /\ code = 1 \/ f = Return code m')).
  { destruct Hrun as [[Hrun ->] | Hrun]; eexists; (split; [exact Hrun |]); auto. }
  destruct Hf as (f & Hf & Hcode).
  destruct (grid_pass_outcome (coef_range sig wlen) (fun d o => (d - 1) * T + o)
              (index_range T) 1 Dn T cgram Hplace Hnd f Hf)
    as [(m1 & -> & Hall & _ & Hst & Hval & _)
       | (m1 & d0 & o0 & -> & Hd0 & Ho0 & Hdeg & Hbefore & Hpart)].
  - left. destruct Hcode as [[Heq ->] | Heq]; [| discriminate Heq].
    injection Heq as ->. split; [reflexivity | split].
    + cbn [stored] in Hst. rewrite app_nil_l in Hst. rewrite Hst.
      rewrite <- (row_major_range Dn T) by (unfold is_size in *; lia).
      apply list_fmap_ext. intros n [d o] Hc.
      apply list_elem_of_lookup_2, elem_of_grid in Hc as [Hd Ho].
      destruct (Hplace d o Hd Ho) as [E _]. exact E.
    + intros d o Hd Ho. destruct (Hall d o Hd Ho) as (r & Hr & Hs).
      pose proof (Hval (d, o) r ltac:(apply elem_of_grid; lia) Hr) as Hload.
      destruct (Hplace d o Hd Ho) as [E _]. rewrite E in Hload.
      exists r. auto.
  - right. destruct Hcode as [[Heq _] | Heq]; [discriminate Heq |].
    injection Heq as <- <-. split; [reflexivity |]. exists d0, o0. auto.
Qed.

End Outcome.

(** ** [corrcoef] does not depend on the order of its two windows *)

Section Symmetry.

Context {D : Type} {ops : DoubleOps D}.
Hypothesis dmul_comm : forall a b : D, dmul a b = dmul b a.

Lemma zip_with_dmul_comm (xs : list D) :
  forall ys : list D, zip_with dmul xs ys = zip_with dmul ys xs.
Proof using dmul_comm.
  induction xs as [| x xs IH]; intros [| y ys]; try reflexivity.
  cbn [zip_with]. rewrite dmul_comm, IH. reflexivity.
Qed.

Lemma pearson_swap (xs ys : list D) (n : Z) :
  pearson_cov ys xs n = pearson_cov xs ys n /\
  pearson_p_std ys xs n = pearson_p_std xs ys n.
Proof using dmul_comm.
  unfold pearson_cov, pearson_p_std, dot.
  rewrite (zip_with_dmul_comm ys xs), (dmul_comm (dsum ys) (dsum xs)).
  rewrite (dmul_comm (dsqrt (pearson_var ys n))). split; reflexivity.
Qed.

(** With a commutative multiplication the two windows can be exchanged. *)
Lemma corrcoef_swap (data : list D) (off_x off_y n : Z) :
  in_bounds data off_x n -> in_bounds data off_y n ->
  Z.of_nat (length data) <= SIZE_MAX ->
  corrcoef data off_x off_y n = corrcoef data off_y off_x n.
Proof using dmul_comm.
  intros Hx Hy Hlen.
  rewrite (corrcoef_in_bounds data off_x off_y n Hx Hy Hlen).
  rewrite (corrcoef_in_bounds data off_y off_x n Hy Hx Hlen).
  cbv zeta. unfold pearson.
  destruct (pearson_swap (window data off_x n) (window data off_y n) n) as [-> ->].
  reflexivity.
Qed.

End Symmetry.

(** IEEE multiplication is commutative: by cases on the two operands, as
    the kernel specifies [*] on binary64. *)
Lemma SFmul_comm (prec emax : Z) (x y : SpecFloat.spec_float) :
  SpecFloat.SFmul prec emax x y = SpecFloat.SFmul prec emax y x.
Proof.
  destruct x as [sx | sx | | sx mx ex], y as [sy | sy | | sy my ey]; cbn [SpecFloat.SFmul];
    try reflexivity; try (rewrite (xorb_comm sx sy); reflexivity).
  rewrite (xorb_comm sx sy), (Pos.mul_comm mx my), (Z.add_comm ex ey). reflexivity.
Qed.

Lemma binary64_mul_comm (x y : float) : PrimFloat.mul x y = PrimFloat.mul y x.
Proof.
  apply FloatAxioms.Prim2SF_inj. rewrite !FloatAxioms.mul_spec.
  apply SFmul_comm.
Qed.

(** X5.  On binary64, for two windows in bounds, [corrcoef] returns the same
    value whichever of the two windows is given first: the same double
    (zeros with their sign), or NaN in both orders.  The kernel's binary64
    has one NaN, so nothing is said of the payload or sign of a NaN. *)
Theorem corrcoef_binary64_symmetric (data : list float) (off_x off_y n : Z) :
  in_bounds data off_x n -> in_bounds data off_y n ->
  Z.of_nat (length data) <= SIZE_MAX ->
  corrcoef data off_x off_y n = corrcoef data off_y off_x n.
Proof.
  apply (corrcoef_swap (ops := binary64)). exact binary64_mul_comm.
Qed.

(** ** Windows of length 0 *)

(** With [n = 0] the loop of [corrcoef] does not run and no sample is
    read. *)
Lemma corrcoef_empty_window {D : Type} {ops : DoubleOps D}
    (data : list D) (off_x off_y : Z) :
  is_size off_x ->
  corrcoef data off_x off_y 0 = Some (corrcoef_finish sums_zero 0).
Proof.
  intros Hx. unfold corrcoef. cbv zeta.
  rewrite Z.add_0_r, size_wrap_small, Z.sub_diag by exact Hx. reflexivity.
Qed.

Section Binary64EmptyWindow.

(** On binary64 the coefficient of two empty windows is [0/0]: not a
    number, so not the sentinel, and not above [0]. *)
Lemma binary64_empty_coefficient :
  exists r : float,
    corrcoef_finish sums_zero 0 = r /\ PrimFloat.is_nan r = true /\
    is_sentinel r = false /\ rectify r = 0%float.
Proof.
  eexists. split; [reflexivity |]. repeat split; vm_compute; reflexivity.
Qed.

(** X6.  On binary64 with [wlen = 0]: [corrcoef] reads no sample and returns
    a NaN, whatever the buffer and the offsets; [correlogram_delay] (with a
    delay for every row) and [correlogram] never fail: they return [1] and
    every cell of the matrix holds [0.0]. *)
Theorem builders_binary64_empty_window (sig : list float) (delays : list Z)
    (Dn T : Z) (cgram : list float) :
  is_size Dn -> is_size T -> Z.of_nat (length cgram) <= SIZE_MAX ->
  (forall t off_y, is_size t ->
     exists r, corrcoef sig t off_y 0 = Some r /\ PrimFloat.is_nan r = true) /\
  (Dn * T <= Z.of_nat (length cgram) ->
   (forall i, 0 <= i < Dn -> is_Some (load delays i)) ->
   exists m',
     correlogram_delay sig delays 0 [Dn; T] cgram = Some (1, m') /\
     forall i t, 0 <= i < Dn -> 0 <= t < T ->
       load (cells m') (i * T + t) = Some 0%float) /\
  ((Dn - 1) * T <= Z.of_nat (length cgram) ->
   exists m',
     correlogram sig 0 [Dn; T] cgram = Some (1, m') /\
     forall d o, 1 <= d < Dn -> 0 <= o < T ->
       load (cells m') ((d - 1) * T + o) = Some 0%float).
Proof.
  intros HD HT Hlen.
  destruct binary64_empty_coefficient as (nan0 & Hnan & Hisnan & Hns & Hrect).
  assert (Hcoef : forall t off_y, is_size t -> corrcoef sig t off_y 0 = Some nan0).
  { intros t off_y Ht. rewrite corrcoef_empty_window by exact Ht. rewrite Hnan. reflexivity. }
  assert (HDmax : Dn <= SIZE_MAX) by (unfold is_size in *; lia).
  split; [| split].
  - intros t off_y Ht. exists nan0. split; [apply Hcoef; exact Ht | exact Hisnan].
  - intros Hfit Hdelays.
    assert (Hcell : forall i t, 0 <= i < Dn -> 0 <= t < T ->
              coef_delay sig delays 0 i t = Some nan0).
    { intros i t Hi Ht. unfold coef_delay. destruct (Hdelays i Hi) as [d ->].
      cbn [mbind option_bind]. apply Hcoef. unfold is_size in *. lia. }
    destruct (grid_pass_success (coef_delay sig delays 0) (fun i t => i * T + t)
                (index_delay T) 0 Dn T cgram
                (index_delay_place Dn T cgram Hfit Hlen)
                (NoDup_index_delay Dn T _ Hfit Hlen))
      as (m' & Hrun & _ & _ & Hval & _).
    { intros i t Hi Ht. exists nan0. split; [apply Hcell; assumption | exact Hns]. }
    exists m'. split.
    + rewrite correlogram_delay_cells by assumption. rewrite Hrun. reflexivity.
    + intros i t Hi Ht.
      pose proof (Hval (i, t) nan0 ltac:(apply elem_of_grid; lia) (Hcell i t Hi Ht)) as Hload.
      destruct (index_delay_place Dn T cgram Hfit Hlen i t Hi Ht) as [E _].
      rewrite E, Hrect in Hload. exact Hload.
  - intros Hfit.
    assert (Hcell : forall d o, 1 <= d < Dn -> 0 <= o < T ->
              coef_range sig 0 d o = Some nan0).
    { intros d o Hd Ho. unfold coef_range. apply Hcoef. unfold is_size in *. lia. }
    destruct (grid_pass_success (coef_range sig 0) (fun d o => (d - 1) * T + o)
                (index_range T) 1 Dn T cgram
                (index_range_place Dn T cgram HDmax Hfit Hlen)
                (NoDup_index_range Dn T _ Hfit Hlen HDmax))
      as (m' & Hrun & _ & _ & Hval & _).
    { intros d o Hd Ho. exists nan0. split; [apply Hcell; assumption | exact Hns]. }
    exists m'. split.
    + rewrite correlogram_cells by assumption. rewrite Hrun. reflexivity.
    + intros d o Hd Ho.
      pose proof (Hval (d, o) nan0 ltac:(apply elem_of_grid; lia) (Hcell d o Hd Ho)) as Hload.
      destruct (index_range_place Dn T cgram HDmax Hfit Hlen d o Hd Ho) as [E _].
      rewrite E, Hrect in Hload. exact Hload.
Qed.

End Binary64EmptyWindow.

(** ** The builders write past the end exactly when [cgram] is too short *)

Section Writes.

Context {D : Type} {ops : DoubleOps D} {C : Type}.
Variables (coef : C -> option D) (index : C -> Z).

(** A pass over cells none of which yields the sentinel makes a store for
    each of them: if it is defined, the place of each lies in the matrix. *)
Lemma run_cells_places (cs : list C) :
  forall (m : matrix D) (f : flow (matrix D)),
    (forall c, c ∈ cs -> proper (coef c)) ->
    run_cells (cell_step coef index) cs m = Some f ->
    forall c, c ∈ cs -> 0 <= index c < Z.of_nat (length (cells m)).
Proof.
  induction cs as [| c0 cs IH]; intros m f Hall Hrun c Hc; [inversion Hc |].
  destruct (Hall c0 ltac:(left)) as (r & Hr & Hns).
  cbn [run_cells] in Hrun. unfold cell_step in Hrun at 1.
  rewrite Hr in Hrun. cbn [mbind option_bind] in Hrun. rewrite Hns in Hrun.
  unfold store in Hrun. destruct (decide _) as [Hidx | _]; [| discriminate].
  cbn [mbind option_bind] in Hrun.
  apply elem_of_cons in Hc as [-> | Hc]; [exact Hidx |].
  specialize (IH _ f (fun c' Hc' => Hall c' ltac:(right; exact Hc')) Hrun c Hc).
  cbn [cells] in IH. rewrite length_insert in IH. exact IH.
Qed.

End Writes.

Section OutputBounds.

Context {D : Type} {ops : DoubleOps D}.

(** X7.  For dimensions whose product fits [size_t] and when no cell yields
    the sentinel (every coefficient is computed and is not [-2]):
    [correlogram_delay] stays inside [cgram] exactly when [cgram] has at
    least [dims[0]*dims[1]] cells, and [correlogram] exactly when it has at
    least [(dims[0]-1)*dims[1]]; with fewer cells they write past the
    end. *)
Theorem builders_defined_iff_fits (sig : list D) (delays : list Z) (wlen Dn T : Z)
    (cgram : list D) :
  is_size Dn -> is_size T -> Dn * T <= SIZE_MAX ->
  Z.of_nat (length cgram) <= SIZE_MAX ->
  ((forall i t, 0 <= i < Dn -> 0 <= t < T -> proper (coef_delay sig delays wlen i t)) ->
   (is_Some (correlogram_delay sig delays wlen [Dn; T] cgram) <->
    Dn * T <= Z.of_nat (length cgram))) /\
  ((forall d o, 1 <= d < Dn -> 0 <= o < T -> proper (coef_range sig wlen d o)) ->
   (is_Some (correlogram sig wlen [Dn; T] cgram) <->
    (Dn - 1) * T <= Z.of_nat (length cgram))).
Proof.
  intros HD HT Hprod Hlen.
  assert (HD0 : 0 <= Dn) by (unfold is_size in HD; lia).
  assert (HT0 : 0 <= T) by (unfold is_size in HT; lia).
  set (len := Z.of_nat (length cgram)) in *.
  assert (Hlen0 : 0 <= len) by (subst len; lia).
  split; intros Hall; split.
  - intros [[code m'] Hrun]. rewrite correlogram_delay_cells in Hrun by assumption.
    destruct (run_cells _ _ _) as [f |] eqn:Hpass; [| discriminate Hrun].
    destruct (Z.le_gt_cases (Dn * T) len) as [Hfit | Hshort]; [exact Hfit | exfalso].
    assert (HTpos : 0 < T) by nia.
    pose proof (Z.div_mod len T ltac:(lia)) as Hdm.
    pose proof (Z.mod_pos_bound len T HTpos) as Hmod.
    pose proof (Z.div_pos len T Hlen0 HTpos) as Hdiv.
    assert (Hrow : len / T < Dn) by nia.
    assert (Hc : (len / T, len mod T) ∈ grid 0 Dn T) by (apply elem_of_grid; lia).
    pose proof (run_cells_places _ (index_delay T) (grid 0 Dn T) (Matrix cgram []) f
                  (fun c Hc' => Hall c.1 c.2
                     (proj1 (proj1 (elem_of_grid 0 Dn T c.1 c.2)
                                   ltac:(destruct c; exact Hc')))
                     (proj2 (proj1 (elem_of_grid 0 Dn T c.1 c.2)
                                   ltac:(destruct c; exact Hc'))))
                  Hpass _ Hc) as Hplace.
    cbn [cells] in Hplace. fold len in Hplace.
    unfold index_delay in Hplace. cbn [fst snd] in Hplace.
    rewrite (size_wrap_small (len / T * T)) in Hplace by (unfold is_size; nia).
    rewrite size_wrap_small in Hplace by (unfold is_size; nia).
    nia.
  - intros Hfit.
    destruct (correlogram_delay_success sig delays wlen Dn T cgram HD HT Hfit Hlen Hall)
      as (m' & Hrun).
    rewrite Hrun. eexists; reflexivity.
  - intros [[code m'] Hrun]. rewrite correlogram_cells in Hrun by assumption.
    destruct (run_cells _ _ _) as [f |] eqn:Hpass; [| discriminate Hrun].
    destruct (Z.le_gt_cases ((Dn - 1) * T) len) as [Hfit | Hshort]; [exact Hfit | exfalso].
    assert (HTpos : 0 < T) by nia.
    pose proof (Z.div_mod len T ltac:(lia)) as Hdm.
    pose proof (Z.mod_pos_bound len T HTpos) as Hmod.
    pose proof (Z.div_pos len T Hlen0 HTpos) as Hdiv.
    assert (Hrow : len / T < Dn - 1) by nia.
    assert (Hc : (len / T + 1, len mod T) ∈ grid 1 Dn T) by (apply elem_of_grid; lia).
    pose proof (run_cells_places _ (index_range T) (grid 1 Dn T) (Matrix cgram []) f
                  (fun c Hc' => Hall c.1 c.2
                     (proj1 (proj1 (elem_of_grid 1 Dn T c.1 c.2)
                                   ltac:(destruct c; exact Hc')))
                     (proj2 (proj1 (elem_of_grid 1 Dn T c.1 c.2)
                                   ltac:(destruct c; exact Hc'))))
                  Hpass _ Hc) as Hplace.
    cbn [cells] in Hplace. fold len in Hplace.
    unfold index_range in Hplace. cbn [fst snd] in Hplace.
    replace (len / T + 1 - 1) with (len / T) in Hplace by lia.
    unfold is_size in HD.
    rewrite (size_wrap_small (len / T)) in Hplace by (unfold is_size; lia).
    rewrite (size_wrap_small (len / T * T)) in Hplace by (unfold is_size; nia).
    rewrite size_wrap_small in Hplace by (unfold is_size; nia).
    nia.
  - intros Hfit.
    assert (HDmax : Dn <= SIZE_MAX) by (unfold is_size in HD; lia).
    destruct (grid_pass_success _ _ _ _ _ _ _
                (index_range_place Dn T cgram HDmax Hfit Hlen)
                (NoDup_index_range Dn T _ Hfit Hlen HDmax) Hall)
      as (m' & Hrun & _).
    rewrite correlogram_cells by assumption. rewrite Hrun. eexists; reflexivity.
Qed.

End OutputBounds.


(** ** The same samples after a map *)

Lemma load_fmap {A B : Type} (f : A -> B) (buf : list A) (i : Z) :
  load (f <$> buf) i = f <$> load buf i.
Proof.
  unfold load. destruct (0 <=? i); [apply list_lookup_fmap | reflexivity].
Qed.

(** Two loops whose bodies agree at every counter that is a [size_t]. *)
Lemma for_loop_ext_size {S : Type} (body1 body2 : Z -> S -> option (flow S))
    (count : nat) :
  (forall i s, is_size i -> body1 i s = body2 i s) ->
  forall i s, is_size i -> for_loop body1 count i s = for_loop body2 count i s.
Proof.
  intros Hext. induction count as [| count IH]; intros i s Hi; [reflexivity |].
  cbn [for_loop]. rewrite (Hext i s Hi).
  destruct (body2 i s) as [[s' | c s'] |]; try reflexivity.
  apply IH. apply is_size_wrap.
Qed.

Section MappedSignal.

Context {D : Type} {ops : DoubleOps D}.

(** The loop of [corrcoef] over a mapped buffer reads the mapped samples at
    the same places, and reads out of bounds at the same places. *)
Lemma corrcoef_loop_fmap (f : D -> D) (data : list D) (count : nat) :
  forall (i j : Z) (s s0 : sums D),
    match corrcoef_loop data count i j s with
    | None => corrcoef_loop (f <$> data) count i j s0 = None
    | Some s' =>
        exists xs ys : list D,
          length xs = count /\ length ys = count /\
          s' = accumulate s xs ys /\
          corrcoef_loop (f <$> data) count i j s0 =
            Some (accumulate s0 (f <$> xs) (f <$> ys))
    end.
Proof.
  induction count as [| count IH]; intros i j s s0.
  - cbn [corrcoef_loop]. exists [], [].
    rewrite !fmap_nil, !accumulate_nil. auto.
  - cbn [corrcoef_loop]. unfold corrcoef_body. rewrite !load_fmap.
    destruct (load data i) as [x |]; [| reflexivity].
    destruct (load data j) as [y |]; [| reflexivity].
    cbn [fmap option_fmap option_map mbind option_bind].
    match goal with
    | |- context [corrcoef_loop data count ?i' ?j' ?s1] =>
        match goal with
        | |- context [corrcoef_loop (f <$> data) count i' j' ?s2] =>
            specialize (IH i' j' s1 s2)
        end
    end.
    destruct (corrcoef_loop data count _ _ _) as [s' |]; [| exact IH].
    destruct IH as (xs & ys & Hxs & Hys & -> & Hrun).
    exists (x :: xs), (y :: ys). cbn [length]. rewrite Hxs, Hys.
    split; [reflexivity | split; [reflexivity | split; [reflexivity |]]].
    rewrite Hrun. reflexivity.
Qed.

End MappedSignal.

(** ** binary64: the polarity of the signal does not matter *)

Section Polarity.

Local Open Scope float_scope.

(** [corrcoef] on the negated signal: out of bounds at the same places, and
    the same coefficient up to the sign of a zero. *)
Lemma corrcoef_opp (sig : list float) (t off_y wlen : Z) :
  option_Forall2 same_double
    (corrcoef (PrimFloat.opp <$> sig) t off_y wlen) (corrcoef sig t off_y wlen).
Proof.
  unfold corrcoef. cbv zeta.
  pose proof (corrcoef_loop_fmap PrimFloat.opp sig
                (Z.to_nat (size_wrap (t + wlen) - t)) t off_y sums_zero sums_zero) as Hloop.
  destruct (corrcoef_loop sig _ t off_y sums_zero) as [s |].
  - destruct Hloop as (xs & ys & _ & _ & -> & ->).
    cbn [mbind option_bind]. constructor. apply corrcoef_finish_opp.
  - rewrite Hloop. constructor.
Qed.

Variable pow4 : float -> float.

(** The test [r == -2] and the stored value do not see the sign of a
    zero. *)
Lemma fill_cell_opp (sig : list float) (wlen t off_y idx : Z) (m : matrix float) :
  fill_cell (ops := binary64_libm pow4) (PrimFloat.opp <$> sig) wlen t off_y idx m =
  fill_cell (ops := binary64_libm pow4) sig wlen t off_y idx m.
Proof.
  unfold fill_cell.
  change (@corrcoef float (binary64_libm pow4)) with (@corrcoef float binary64).
  destruct (corrcoef_opp sig t off_y wlen) as [r' r Hs |]; [| reflexivity].
  cbn [mbind option_bind deqb d_of_Z binary64_libm].
  rewrite (same_double_eqb r' r _ Hs).
  destruct (r =? Binary64.of_Z (-2)); [reflexivity |].
  replace (rectify (ops := binary64_libm pow4) r')
    with (rectify (ops := binary64_libm pow4) r); [reflexivity |].
  unfold rectify. cbn [dltb dpow4 d_of_Z binary64_libm]. rewrite of_Z_zero.
  rewrite (same_double_ltb 0 r' r Hs).
  destruct (0 <? r) eqn:Hpos; [| reflexivity].
  rewrite <- (same_double_ltb 0 r' r Hs) in Hpos.
  rewrite (same_double_positive r' r Hs Hpos). reflexivity.
Qed.

(** X8.  On binary64, negating every sample of the signal changes
    nothing: [corrcoef] reads out of bounds at the same places and returns
    the same coefficient up to the sign of a zero, and both builders return
    the same code and leave the same matrix, whatever function [pow] is. *)
Theorem correlogram_binary64_polarity (sig : list float) (delays : list Z)
    (wlen : Z) (dims : list Z) (cgram : list float) :
  (forall t off_y,
     option_Forall2 same_double
       (corrcoef (PrimFloat.opp <$> sig) t off_y wlen) (corrcoef sig t off_y wlen)) /\
  correlogram_delay (ops := binary64_libm pow4) (PrimFloat.opp <$> sig) delays wlen
    dims cgram =
  correlogram_delay (ops := binary64_libm pow4) sig delays wlen dims cgram /\
  correlogram (ops := binary64_libm pow4) (PrimFloat.opp <$> sig) wlen dims cgram =
  correlogram (ops := binary64_libm pow4) sig wlen dims cgram.
Proof.
  assert (H0 : is_size 0) by (unfold is_size, SIZE_MAX; lia).
  assert (H1 : is_size 1) by (unfold is_size, SIZE_MAX; lia).
  split; [intros t off_y; apply corrcoef_opp | split].
  - unfold correlogram_delay. f_equal.
    destruct (load dims 0) as [dims0 |]; [| reflexivity].
    cbn [mbind option_bind]. unfold for_range at 1 3.
    apply for_loop_ext_size; [| exact H0]. intros i m _.
    destruct (load dims 1) as [dims1 |]; [| reflexivity].
    cbn [mbind option_bind]. unfold for_range.
    apply for_loop_ext_size; [| exact H0]. intros t m0 _.
    destruct (load delays i) as [delay |]; [| reflexivity].
    cbn [mbind option_bind]. apply fill_cell_opp.
  - unfold correlogram. f_equal.
    destruct (load dims 0) as [dims0 |]; [| reflexivity].
    cbn [mbind option_bind]. unfold for_range at 1 3.
    apply for_loop_ext_size; [| exact H1]. intros d m _.
    destruct (load dims 1) as [dims1 |]; [| reflexivity].
    cbn [mbind option_bind]. unfold for_range.
    apply for_loop_ext_size; [| exact H0]. intros t m0 _.
    apply fill_cell_opp.
Qed.

End Polarity.


(** ** The further properties at concrete inputs *)

Section FurtherWitnesses.

Import Examples.

(** X1 at the ramp: the windows at 0 and 4 are in bounds and the coefficient
    is computed; the window at 6 is not and the call reads past the end. *)
Lemma corrcoef_defined_iff_in_bounds_witness :
  is_Some (corrcoef ramp 0 4 4) /\ corrcoef ramp 0 6 4 = None.
Proof.
  split.
  - apply (corrcoef_defined_iff_in_bounds ramp 0 4 4);
      [lia | lia | lia | solve_bounds | solve_bounds |].
    split; solve_bounds.
  - destruct (corrcoef ramp 0 6 4) as [r |] eqn:Hr; [| reflexivity].
    assert (Hsome : is_Some (corrcoef ramp 0 6 4)) by (rewrite Hr; eexists; reflexivity).
    apply (corrcoef_defined_iff_in_bounds ramp 0 6 4) in Hsome;
      [| lia | lia | lia | solve_bounds | solve_bounds].
    destruct Hsome as [_ (_ & _ & Hout)]. vm_compute in Hout.
    exfalso. apply Hout. reflexivity.
Defined.


(** X3 at [doubling]: the code is [1] and the four stores went to the places
    0, 1, 2, 3. *)
Lemma correlogram_delay_outcome_witness :
  exists m',
    correlogram_delay doubling [4; 1] 3 [2; 2] (blank 4) = Some (1, m') /\
    stored m' = seqZ 0 (2 * 2).
Proof.
  run_builder.
  assert (Hrun : correlogram_delay doubling [4; 1] 3 [2; 2] (blank 4) =
                 Some (1, Matrix [1; 1; 1; 0]%float [0; 1; 2; 3]))
    by (vm_compute; reflexivity).
  split; [exact Hrun |].
  destruct (correlogram_delay_outcome doubling [4; 1] 3 2 2 (blank 4) 1 _
              ltac:(solve_bounds) ltac:(solve_bounds) ltac:(solve_bounds)
              ltac:(solve_bounds) Hrun) as [(_ & Hst & _) | (Hcode & _)].
  - exact Hst.
  - discriminate Hcode.
Defined.

(** X4 at [doubling_then_flat]: the code is [0] and there is a first cell
    whose coefficient is the sentinel. *)
Lemma correlogram_outcome_witness :
  exists m',
    correlogram doubling_then_flat 3 [5; 2] (blank 8) = Some (0, m') /\
    exists d0 o0,
      1 <= d0 < 5 /\ 0 <= o0 < 2 /\
      degenerate (coef_range doubling_then_flat 3 d0 o0) /\
      partial_fill (coef_range doubling_then_flat 3) (fun d o => (d - 1) * 2 + o)
        1 2 d0 o0 (blank 8) m'.
Proof.
  run_builder.
  assert (Hrun : correlogram doubling_then_flat 3 [5; 2] (blank 8) =
                 Some (0, Matrix (1%float :: blank 7) [0; 1; 2; 3; 4]))
    by (vm_compute; reflexivity).
  split; [exact Hrun |].
  destruct (correlogram_outcome doubling_then_flat 3 5 2 (blank 8) 0 _
              ltac:(solve_bounds) ltac:(solve_bounds) ltac:(solve_bounds)
              ltac:(solve_bounds) Hrun)
    as [(Hcode & _) | (_ & d0 & o0 & Hd0 & Ho0 & Hdeg & _ & Hpart)].
  - discriminate Hcode.
  - exists d0, o0. auto.
Defined.

(** X5 at [doubling]: the windows (1, 2, 4) and (2, 4, 8). *)
Lemma corrcoef_binary64_symmetric_witness :
  in_bounds doubling 0 3 /\ in_bounds doubling 1 3 /\
  corrcoef doubling 0 1 3 = corrcoef doubling 1 0 3.
Proof.
  assert (H0 : in_bounds doubling 0 3) by solve_bounds.
  assert (H1 : in_bounds doubling 1 3) by solve_bounds.
  split; [exact H0 | split; [exact H1 |]].
  exact (corrcoef_binary64_symmetric doubling 0 1 3 H0 H1 ltac:(solve_bounds)).
Defined.

(** X6 on a signal without samples: two rows, two positions. *)
Lemma builders_binary64_empty_window_witness :
  exists m',
    correlogram_delay silence [4; 1] 0 [2; 2] (blank 4) = Some (1, m') /\
    forall i t, 0 <= i < 2 -> 0 <= t < 2 ->
      load (cells m') (i * 2 + t) = Some 0%float.
Proof.
  destruct (builders_binary64_empty_window silence [4; 1] 2 2 (blank 4)
              ltac:(solve_bounds) ltac:(solve_bounds) ltac:(solve_bounds))
    as (_ & Hdelay & _).
  apply Hdelay; [solve_bounds |].
  intros i Hi. assert (Hcases : i = 0 \/ i = 1) by lia.
  destruct Hcases as [-> | ->]; eexists; reflexivity.
Defined.

(** X7 at [doubling] with [dims = [2, 2]]: four cells are enough, three are
    not. *)
Lemma builders_defined_iff_fits_witness :
  (forall i t, 0 <= i < 2 -> 0 <= t < 2 -> proper (coef_delay doubling [4; 1] 3 i t)) /\
  is_Some (correlogram_delay doubling [4; 1] 3 [2; 2] (blank 4)) /\
  correlogram_delay doubling [4; 1] 3 [2; 2] (blank 3) = None.
Proof.
  assert (Hall : forall i t, 0 <= i < 2 -> 0 <= t < 2 ->
            proper (coef_delay doubling [4; 1] 3 i t))
    by (apply grid_Forall; solve_cells).
  split; [exact Hall | split].
  - apply (proj1 (builders_defined_iff_fits doubling [4; 1] 3 2 2 (blank 4)
                    ltac:(solve_bounds) ltac:(solve_bounds) ltac:(solve_bounds)
                    ltac:(solve_bounds)) Hall).
    vm_compute. discriminate.
  - destruct (correlogram_delay doubling [4; 1] 3 [2; 2] (blank 3)) as [res |] eqn:Hrun;
      [exfalso | reflexivity].
    assert (Hsome : is_Some (correlogram_delay doubling [4; 1] 3 [2; 2] (blank 3)))
      by (rewrite Hrun; eexists; reflexivity).
    apply (proj1 (builders_defined_iff_fits doubling [4; 1] 3 2 2 (blank 3)
                    ltac:(solve_bounds) ltac:(solve_bounds) ltac:(solve_bounds)
                    ltac:(solve_bounds)) Hall) in Hsome.
    vm_compute in Hsome. apply Hsome. reflexivity.
Defined.

End FurtherWitnesses.
